(** * Hebrew pages -> translation -> Word document

    A shallow embedding of [app.py]: the whitespace normaliser, the PDF page
    extractor, the document assembler, the page translator and the run that
    the "Translate and build Word document" button starts.

    Python values are modelled as follows.
    - [str] is a list of Unicode code points ([N]); literals are written in
      ASCII with [lit] and the few other characters by their code point.
    - The three external libraries (PyMuPDF, the OpenAI client, python-docx)
      are not part of the program; they appear as Section variables or as the
      data they hand to the program.
    - A float is the rational it equals; the rounding of a quotient to a
      float is a Section variable, assumed monotone and exact on 0 and 1.
    - Everything the script does to the outside (calls to the translation
      service, widgets drawn, the download offered) is appended to a trace of
      events, and an uncaught exception ends the run. *)

From Stdlib Require Import List Bool Arith NArith ZArith QArith Qminmax Qround Lia.
From Stdlib Require Import Sorted.
From Stdlib Require Import Ascii String DecimalString.
Import ListNotations.

(* [length] and [concat] are the ones of lists throughout; numbers are [nat]
   unless marked. *)
Local Abbreviation length := List.length.
Local Abbreviation concat := List.concat.
Close Scope Q_scope.

Set Implicit Arguments.

(** ** Python strings *)

Module PyStr.

Definition char := N.
Definition str := list char.

(** An ASCII literal as a [str]. *)
Definition lit (s : string) : str :=
  map N_of_ascii (list_ascii_of_string s).

Definition TAB : char := 9%N.
Definition LF : char := 10%N.
Definition CR : char := 13%N.
Definition SP : char := 32%N.

(** [str.isspace] for one character: the code points CPython's
    [_PyUnicode_IsWhitespace] accepts. *)
Definition isspace (c : char) : bool :=
  ((9 <=? c) && (c <=? 13) || (28 <=? c) && (c <=? 32)
   || (c =? 133) || (c =? 160) || (c =? 5760)
   || (8192 <=? c) && (c <=? 8202)
   || (c =? 8232) || (c =? 8233) || (c =? 8239) || (c =? 8287)
   || (c =? 12288))%N.

Fixpoint dropwhile (p : char -> bool) (s : str) : str :=
  match s with
  | [] => []
  | c :: s' => if p c then dropwhile p s' else s
  end.

(** [s.lstrip()], [s.rstrip()] and [s.strip()] without argument. *)
Definition lstrip (s : str) : str := dropwhile isspace s.
Definition rstrip (s : str) : str := rev (dropwhile isspace (rev s)).
Definition strip (s : str) : str := rstrip (lstrip s).

(** [s.startswith(p)]. *)
Fixpoint startswith (p s : str) : bool :=
  match p, s with
  | [], _ => true
  | _ :: _, [] => false
  | a :: p', c :: s' => (a =? c)%N && startswith p' s'
  end.

(** [p in s]: [p] occurs in [s] as a contiguous substring. *)
Fixpoint contains (p s : str) : bool :=
  startswith p s ||
  match s with
  | [] => false
  | _ :: s' => contains p s'
  end.

(** [s.replace(old, new)]: the occurrences of [old] are found from the left
    and do not overlap.  [skip] counts the characters of an occurrence that
    are still to be passed over. *)
Fixpoint replace_from (old new : str) (skip : nat) (s : str) : str :=
  match s with
  | [] => []
  | c :: s' =>
      match skip with
      | S k => replace_from old new k s'
      | O =>
          if startswith old s
          then new ++ replace_from old new (length old - 1) s'
          else c :: replace_from old new 0 s'
      end
  end.

Definition replace (old new s : str) : str :=
  match old with
  | [] => new ++ flat_map (fun c => c :: new) s
  | _ :: _ => replace_from old new 0 s
  end.

(** [cons_hd c l] puts [c] in front of the first string of [l]. *)
Definition cons_hd (c : char) (l : list str) : list str :=
  match l with
  | [] => [[c]]
  | x :: xs => (c :: x) :: xs
  end.

(** [s.split(sep)] for a non-empty [sep] (Python raises [ValueError] on an
    empty one): the separators are found from the left and do not overlap;
    the result always has one string more than there are separators. *)
Fixpoint split_from (sep : str) (skip : nat) (s : str) : list str :=
  match s with
  | [] => [[]]
  | c :: s' =>
      match skip with
      | S k => split_from sep k s'
      | O =>
          if startswith sep s
          then [] :: split_from sep (length sep - 1) s'
          else cons_hd c (split_from sep 0 s')
      end
  end.

Definition split (sep s : str) : list str := split_from sep 0 s.

(** [re.sub(r"C{n,}", repl, s)] for a character class [C] and [1 <= n]:
    every maximal run of at least [n] characters of the class is replaced by
    [repl]; shorter runs are copied.  [run] holds the run being read, last
    character first. *)
Definition flush (n : nat) (repl run : str) : str :=
  if n <=? length run then repl else rev run.

Fixpoint re_sub_runs_from (cls : char -> bool) (n : nat) (repl run s : str)
  : str :=
  match s with
  | [] => flush n repl run
  | c :: s' =>
      if cls c
      then re_sub_runs_from cls n repl (c :: run) s'
      else flush n repl run ++ c :: re_sub_runs_from cls n repl [] s'
  end.

Definition re_sub_runs (cls : char -> bool) (n : nat) (repl s : str) : str :=
  re_sub_runs_from cls n repl [] s.

(** [str(n)] for a natural number. *)
Definition str_of_nat (n : nat) : str :=
  lit (NilEmpty.string_of_uint (Nat.to_uint n)).

(** [x or default] for a value that may be [None] or empty. *)
Definition or_else (x : option str) (default : str) : str :=
  match x with
  | Some (c :: s) => c :: s
  | _ => default
  end.

End PyStr.
Import PyStr.

(** ** [normalize_whitespace] *)

Definition is_hspace (c : char) : bool := ((c =? SP) || (c =? TAB))%N.
Definition is_lf (c : char) : bool := (c =? LF)%N.

Definition normalize_whitespace (text : str) : str :=
  let text := replace [CR] [LF] (replace [CR; LF] [LF] text) in
  let text := re_sub_runs is_hspace 1 [SP] text in
  let text := strip (re_sub_runs is_lf 3 [LF; LF] text) in
  text.

(** ** The libraries around the program *)

(** python-docx: a document is its default font and the blocks of its body,
    in the order they were added. *)
Module Docx.

Inductive block :=
| Heading (text : str) (level : nat)
| Paragraph (text : str)
| PageBreak.

Record font := { font_name : option str; font_size_pt : option nat }.

Record document := { normal_font : font; body : list block }.

(** [Document()]: the default template, with an empty body. *)
Definition Document : document :=
  {| normal_font := {| font_name := None; font_size_pt := None |}; body := [] |}.

Definition set_normal_font_name (doc : document) (n : str) : document :=
  {| normal_font := {| font_name := Some n;
                       font_size_pt := font_size_pt (normal_font doc) |};
     body := body doc |}.

Definition set_normal_font_size (doc : document) (pt : nat) : document :=
  {| normal_font := {| font_name := font_name (normal_font doc);
                       font_size_pt := Some pt |};
     body := body doc |}.

Definition add (doc : document) (b : block) : document :=
  {| normal_font := normal_font doc; body := body doc ++ [b] |}.

Definition add_heading (doc : document) (text : str) (level : nat) : document :=
  add doc (Heading text level).

Definition add_paragraph (doc : document) (text : str) : document :=
  add doc (Paragraph text).

Definition add_page_break (doc : document) : document :=
  add doc PageBreak.

End Docx.
Import Docx.

(** The exceptions of a run: the ones the libraries raise (a PDF that
    cannot be read, a failed remote call), Python's [ZeroDivisionError] and
    the exception [st.stop()] ends the script with. *)
Inductive exn (lib_error : Type) :=
| LibraryError (e : lib_error)
| ZeroDivisionError
| StopException.

Arguments LibraryError {lib_error} e.
Arguments ZeroDivisionError {lib_error}.
Arguments StopException {lib_error}.

Inductive outcome (E A : Type) :=
| Return (a : A)
| Raise (e : E).

Arguments Return {E A} a.
Arguments Raise {E A} e.

(** What the run sends to the translation service, with the answer it got,
    and what it shows to the user. *)
Inductive event (bytes E : Type) :=
| ServiceCall (model input : str) (response : outcome E (option str))
| Warning (msg : str)
| Progress (value : Q)
| Success (msg : str)
| DownloadButton (label : str) (data : bytes) (file_name mime : str).

Arguments ServiceCall {bytes E} model input response.
Arguments Warning {bytes E} msg.
Arguments Progress {bytes E} value.
Arguments Success {bytes E} msg.
Arguments DownloadButton {bytes E} label data file_name mime.

(** PyMuPDF: an opened document has a page count and, for each page index,
    the text [load_page(i).get_text("text")] gives (or the exception it
    raises). *)
Record pdf_document (E : Type) := {
  page_count : nat;
  get_text : nat -> outcome E (option str)
}.

(** An upload: [up.name] and [up.getvalue()]. *)
Record uploaded_file (bytes : Type) := { name : str; getvalue : bytes }.

Arguments name {bytes} u.
Arguments getvalue {bytes} u.

(** ** A small world to run the program in *)

Module Demo.

Inductive error := BadPdf | ServiceDown.

Inductive bytes :=
| Pdf (pages : list (option str))
| NotPdf
| Docx (doc : document).

Definition fitz_open (b : bytes)
  : outcome (exn error) (pdf_document (exn error)) :=
  match b with
  | Pdf pages =>
      Return {| page_count := length pages;
                get_text := fun i => Return (nth i pages None) |}
  | _ => Raise (LibraryError BadPdf)
  end.

(** A reader for which the second page of every PDF is unreadable. *)
Definition fitz_open_torn (b : bytes)
  : outcome (exn error) (pdf_document (exn error)) :=
  match b with
  | Pdf pages =>
      Return {| page_count := length pages;
                get_text := fun i =>
                  if i =? 1 then Raise (LibraryError BadPdf)
                  else Return (nth i pages None) |}
  | _ => Raise (LibraryError BadPdf)
  end.

Definition is_call (ev : event bytes (exn error)) : bool :=
  match ev with
  | ServiceCall _ _ _ => true
  | _ => false
  end.

(** A service that answers every request with the same text. *)
Definition same_answer (tr : list (event bytes (exn error))) (model input : str)
  : outcome (exn error) (option str) :=
  Return (Some (lit " Peace be upon you. ")).

(** A service that answers [n] requests and is down afterwards. *)
Definition down_after (n : nat) (tr : list (event bytes (exn error)))
  (model input : str) : outcome (exn error) (option str) :=
  if length (filter is_call tr) <? n
  then Return (Some (lit "Peace."))
  else Raise (LibraryError ServiceDown).

Definition docx_save (doc : document) : bytes := Docx doc.

(** A rounding of rationals: downwards, to 53 binary places. *)
Definition round_float (q : Q) : Q :=
  Qmake (Qfloor (q * inject_Z (2 ^ 53))) (2 ^ 53).

(** Two Hebrew texts. *)
Definition greeting : str :=
  [1513; 1500; 1493; 1501; 32; 1506; 1500; 1497; 1499; 1501]%N.

Definition blessing : str :=
  [1489; 1512; 1493; 1499; 1497; 1501; 32; 1492; 1489; 1488; 1497; 1501]%N.

Definition first_pdf : bytes :=
  Pdf [ Some ([SP; SP] ++ greeting ++ [CR; LF; TAB]); None; Some (lit "p. 2") ].

Definition second_pdf : bytes := Pdf [ Some blessing ].

Definition uploads : list (uploaded_file bytes) :=
  [ {| name := lit "a.pdf"; getvalue := first_pdf |};
    {| name := lit "b.pdf"; getvalue := second_pdf |} ].

(** A scanned PDF: no page has text to speak of. *)
Definition scanned_uploads : list (uploaded_file bytes) :=
  [ {| name := lit "scan.pdf";
       getvalue := Pdf [ None; Some (lit "p. 2"); Some [LF; SP] ] |} ].

Definition style : str := lit "Academic / formal".

End Demo.

(** ** The program *)

Section App.

Variable bytes : Type.
Variable lib_error : Type.

Abbreviation exc := (exn lib_error).
Abbreviation trace := (list (event bytes exc)).

(** [fitz.open(stream=pdf_bytes, filetype="pdf")]. *)
Variable fitz_open : bytes -> outcome exc (pdf_document exc).

(** [client.responses.create(model=..., input=...)]: the [output_text] of
    the response, or the exception raised.  The service is outside the
    program; its answer may depend on everything that happened before. *)
Variable responses_create : trace -> str -> str -> outcome exc (option str).

(** [doc.save(bio); bio.getvalue()]. *)
Variable docx_save : document -> bytes.

(** Python floats: [round_float q] is the float nearest to the rational
    [q], as a rational.  Of the rounding the proofs use only that it is
    monotone and that 0 and 1 are floats. *)
Variable round_float : Q -> Q.

Hypothesis round_float_mono :
  forall x y : Q, (x <= y)%Q -> (round_float x <= round_float y)%Q.
Hypothesis round_float_zero : (round_float 0 == 0)%Q.
Hypothesis round_float_one : (round_float 1 == 1)%Q.

(** *** [extract_pdf_pages_text] *)

Fixpoint extract_pages (doc : pdf_document exc) (indices : list nat)
  (pages : list str) : outcome exc (list str) :=
  match indices with
  | [] => Return pages
  | i :: rest =>
      match get_text doc i with
      | Raise e => Raise e
      | Return txt =>
          extract_pages doc rest (pages ++ [normalize_whitespace (or_else txt [])])
      end
  end.

Definition extract_pdf_pages_text (pdf_bytes : bytes) : outcome exc (list str) :=
  match fitz_open pdf_bytes with
  | Raise e => Raise e
  | Return doc => extract_pages doc (seq 0 (page_count doc)) []
  end.

(** *** [build_docx] *)

Definition build_docx_paragraph (doc : document) (para : str) : document :=
  let p := strip para in
  match p with
  | [] => doc
  | _ :: _ => add_paragraph doc p
  end.

Definition build_docx_page (doc : document) (page : str * str) : document :=
  let '(page_label, translated) := page in
  let doc := add_heading doc page_label 2 in
  fold_left build_docx_paragraph (split [LF; LF] translated) doc.

Definition build_docx_file (doc : document) (item : str * list (str * str))
  : document :=
  let '(file_label, pages) := item in
  let doc := add_heading doc file_label 1 in
  let doc := fold_left build_docx_page pages doc in
  add_page_break doc.

Definition build_docx_document (items : list (str * list (str * str)))
  : document :=
  let doc := Document in
  let doc := set_normal_font_name doc (lit "Calibri") in
  let doc := set_normal_font_size doc 11 in
  fold_left build_docx_file items doc.

Definition build_docx (items : list (str * list (str * str))) : bytes :=
  docx_save (build_docx_document items).

(** *** Effects: a trace of events and exceptions *)

Definition M (A : Type) : Type := trace -> outcome exc A * trace.

Definition ret {A} (a : A) : M A := fun tr => (Return a, tr).

Definition raise {A} (e : exc) : M A := fun tr => (Raise e, tr).

Definition bind {A B} (m : M A) (k : A -> M B) : M B :=
  fun tr =>
    match m tr with
    | (Return a, tr') => k a tr'
    | (Raise e, tr') => (Raise e, tr')
    end.

Notation "x <- m ;; k" := (bind m (fun x => k))
  (at level 61, m at next level, right associativity).
Notation "m ;;; k" := (bind m (fun _ => k))
  (at level 61, right associativity).

Definition emit (ev : event bytes exc) : M unit := fun tr => (Return tt, tr ++ [ev]).

(** A pure computation that may raise, run inside [M]. *)
Definition lift {A} (o : outcome exc A) : M A := fun tr => (o, tr).

(** The remote call: the request is sent and the service answers, with a
    response or with an exception. *)
Definition call_service (model input : str) : M (option str) :=
  fun tr =>
    let response := responses_create tr model input in
    (response, tr ++ [ServiceCall model input response]).

(** *** [translate_text] *)

Definition prompt_of (hebrew_text target_style extra : str) : str :=
  strip
    (lit "You are a careful Hebrew-to-English translator." ++ [LF]
     ++ lit "Translate the text accurately. Do not add commentary." ++ [LF]
     ++ lit "Preserve paragraph structure." ++ [LF]
     ++ [LF]
     ++ lit "Target style: " ++ target_style ++ [LF]
     ++ lit "Extra instructions: " ++ or_else (Some extra) (lit "None") ++ [LF]
     ++ [LF]
     ++ lit "HEBREW TEXT:" ++ [LF]
     ++ hebrew_text ++ [LF]).

Definition translate_text (hebrew_text target_style extra : str) : M str :=
  match strip hebrew_text with
  | [] => ret []
  | _ :: _ =>
      let prompt := prompt_of hebrew_text target_style extra in
      output_text <- call_service (lit "gpt-4.1-mini") prompt ;;
      ret (strip (or_else output_text []))
  end.

(** *** The script: widgets and the run *)

Definition target_style_options : list str :=
  [ lit "Clear and straightforward";
    lit "More literal / closer to Hebrew";
    lit "Warm / chassidus-tone (still accurate)";
    lit "Academic / formal" ].

(** [st.selectbox(label, options, index=...)]: the option the user picked,
    the one at [index] while nothing was picked. *)
Definition st_selectbox (options : list str) (index : nat) (picked : option nat)
  : option str :=
  nth_error options (match picked with Some i => i | None => index end).

Definition target_style_of (picked : option nat) : option str :=
  st_selectbox target_style_options 0 picked.

(** The text put in place of a translation for a page without text. *)
Definition no_text_message : str :=
  lit "[No selectable text detected on this page.]" ++ [LF; LF]
  ++ lit "If this PDF page is a scanned image, you" ++ [8217%N]
  ++ lit "ll need Hebrew OCR added to the app.".

(** [a / b] on integers: the float nearest to the quotient. *)
Definition truediv (a b : nat) : outcome exc Q :=
  match b with
  | O => Raise ZeroDivisionError
  | S _ => Return (round_float (Qmake (Z.of_nat a) (Pos.of_nat b)))
  end.

(** The first loop: extraction of every upload, counting the pages. *)
Fixpoint read_uploads (uploads : list (uploaded_file bytes))
  (pdf_cache : list (str * list str)) (total_pages : nat)
  : outcome exc (list (str * list str) * nat) :=
  match uploads with
  | [] => Return (pdf_cache, total_pages)
  | up :: rest =>
      let pdf_bytes := getvalue up in
      match extract_pdf_pages_text pdf_bytes with
      | Raise e => Raise e
      | Return pages =>
          read_uploads rest (pdf_cache ++ [(name up, pages)])
                       (total_pages + length pages)
      end
  end.

(** The body of the inner loop up to [translated]. *)
Definition translated_of (heb target_style extra : str) : M str :=
  if length (strip heb) <? 10
  then ret no_text_message
  else translate_text heb target_style extra.

(** The inner loop, over [enumerate(pages, start=1)]. *)
Fixpoint translate_pages (target_style extra : str) (total_pages : nat)
  (pages : list str) (i : nat) (page_outputs : list (str * str)) (done : nat)
  : M (list (str * str) * nat) :=
  match pages with
  | [] => ret (page_outputs, done)
  | heb :: rest =>
      let page_label := lit "Page " ++ str_of_nat i in
      translated <- translated_of heb target_style extra ;;
      let page_outputs := page_outputs ++ [(page_label, translated)] in
      let done := done + 1 in
      v <- lift (truediv done (Nat.max total_pages 1)) ;;
      emit (Progress (Qmin v 1%Q)) ;;;
      translate_pages target_style extra total_pages rest (S i) page_outputs done
  end.

(** The outer loop, over [pdf_cache]. *)
Fixpoint translate_files (target_style extra : str) (total_pages : nat)
  (pdf_cache : list (str * list str))
  (results : list (str * list (str * str))) (done : nat)
  : M (list (str * list (str * str))) :=
  match pdf_cache with
  | [] => ret results
  | (filename, pages) :: rest =>
      r <- translate_pages target_style extra total_pages pages 1 [] done ;;
      let '(page_outputs, done) := r in
      translate_files target_style extra total_pages rest
                      (results ++ [(filename, page_outputs)]) done
  end.

(** What happens when the button is pressed. *)
Definition run (uploads : list (uploaded_file bytes)) (target_style extra_instructions : str)
  : M unit :=
  match uploads with
  | [] => emit (Warning (lit "Upload at least one PDF.")) ;;; raise StopException
  | _ :: _ =>
      c <- lift (read_uploads uploads [] 0) ;;
      let '(pdf_cache, total_pages) := c in
      emit (Progress 0%Q) ;;;
      results <- translate_files target_style extra_instructions total_pages
                                 pdf_cache [] 0 ;;
      let docx_bytes := build_docx results in
      emit (Success (lit "Done.")) ;;;
      emit (DownloadButton (lit "Download translation.docx") docx_bytes
              (lit "translation.docx")
              (lit "application/vnd.openxmlformats-officedocument.wordprocessingml.document"))
  end.

(** ** The assembler in the words of the specification *)

(** The text cut at its blank-line boundaries, a boundary being a maximal
    run of two or more line feeds.  [in_boundary] tells that the characters
    just read belong to a boundary. *)
Fixpoint segments_from (in_boundary : bool) (s : str) : list str :=
  match s with
  | [] => [[]]
  | c :: s' =>
      if in_boundary
      then if (c =? LF)%N
           then segments_from true s'
           else cons_hd c (segments_from false s')
      else if startswith [LF; LF] s
           then [] :: segments_from true s'
           else cons_hd c (segments_from false s')
  end.

Definition nonempty (s : str) : bool :=
  match s with
  | [] => false
  | _ :: _ => true
  end.

(** [prepend w l] puts the string [w] in front of the first string of [l]. *)
Definition prepend (w : str) (l : list str) : list str :=
  match l with
  | [] => [w]
  | x :: xs => (w ++ x) :: xs
  end.

(** The strings of [l] trimmed, the empty ones left out. *)
Definition trimmed_nonempty (l : list str) : list str :=
  filter nonempty (map strip l).

(** One paragraph per non-empty trimmed segment. *)
Definition spec_paragraphs (translated : str) : list str :=
  trimmed_nonempty (segments_from false translated).

Definition spec_page_blocks (page : str * str) : list block :=
  Heading (fst page) 2 :: map Paragraph (spec_paragraphs (snd page)).

Definition spec_file_blocks (item : str * list (str * str)) : list block :=
  Heading (fst item) 1 :: flat_map spec_page_blocks (snd item) ++ [PageBreak].

Definition spec_blocks (items : list (str * list (str * str))) : list block :=
  flat_map spec_file_blocks items.

(** A string is stripped when neither its first nor its last character is
    white space. *)
Definition stripped (s : str) : Prop :=
  (forall c t, s = c :: t -> isspace c = false) /\
  (forall t c, s = t ++ [c] -> isspace c = false).

(** The form [normalize_whitespace] brings a text to: no carriage return,
    no tab, no two spaces in a row, no three line feeds in a row, and no
    white space at either end. *)
Definition normal_form (s : str) : Prop :=
  ~ In CR s /\ ~ In TAB s
  /\ contains [SP; SP] s = false
  /\ contains [LF; LF; LF] s = false
  /\ stripped s.

(** The characters of a text that are not white space, in order. *)
Definition visible (s : str) : str := filter (fun c => negb (isspace c)) s.

(** *** The normaliser as the specification words it *)

(** Line endings brought to one convention: every carriage return followed
    by a line feed, and every carriage return on its own, is one line
    feed; nothing else changes. *)
Fixpoint spec_line_endings (s : str) : str :=
  match s with
  | [] => []
  | c :: s' =>
      if (c =? CR)%N
      then LF :: match s' with
                 | [] => []
                 | d :: s'' =>
                     if (d =? LF)%N then spec_line_endings s''
                     else spec_line_endings s'
                 end
      else c :: spec_line_endings s'
  end.

(** The maximal runs of a text with respect to a class of characters: the
    text is cut wherever membership of the class changes, and every piece
    carries whether its characters are in the class. *)
Fixpoint runs (cls : char -> bool) (s : str) : list (bool * str) :=
  match s with
  | [] => []
  | c :: s' =>
      match runs cls s' with
      | [] => [(cls c, [c])]
      | (b, r) :: g =>
          if Bool.eqb (cls c) b then (b, c :: r) :: g
          else (cls c, [c]) :: (b, r) :: g
      end
  end.

(** Every maximal run of at least [n] characters of the class collapsed to
    [repl]; the shorter runs and all other characters are kept. *)
Definition spec_collapse (cls : char -> bool) (n : nat) (repl s : str) : str :=
  flat_map
    (fun run => if fst run && (n <=? length (snd run)) then repl else snd run)
    (runs cls s).

(** The text before its ends are trimmed: line endings brought to line
    feeds, then every run of spaces and tabs collapsed to one space, then
    every run of three or more line feeds collapsed to two. *)
Definition spec_collapsed (text : str) : str :=
  spec_collapse is_lf 3 [LF; LF]
    (spec_collapse is_hspace 1 [SP] (spec_line_endings text)).

(** ** Reading a trace *)

(** The values given to the progress bar, in order. *)
Definition progress_values (tr : trace) : list Q :=
  flat_map (fun ev => match ev with Progress v => [v] | _ => [] end) tr.

(** The prompts sent to the translation service, in order. *)
Definition call_inputs (tr : trace) : list str :=
  flat_map (fun ev => match ev with ServiceCall _ input _ => [input] | _ => [] end) tr.

Definition is_failed_call (ev : event bytes exc) : bool :=
  match ev with
  | ServiceCall _ _ (Raise _) => true
  | _ => false
  end.

Definition is_download (ev : event bytes exc) : bool :=
  match ev with
  | DownloadButton _ _ _ _ => true
  | _ => false
  end.

(** A page has enough text to be sent for translation. *)
Definition sufficient (heb : str) : bool := negb (length (strip heb) <? 10).

(** The value reported after the [k]-th page of [N]. *)
Definition progress_value (N k : nat) : Q :=
  Qmin (round_float (Qmake (Z.of_nat k) (Pos.of_nat (Nat.max N 1)))) 1%Q.

Definition page_label (i : nat) : str := lit "Page " ++ str_of_nat i.

(** What is recorded for a page: the fixed message, or the trimmed answer
    to the one request made for it. *)
Definition page_recorded (target_style extra : str) (tr : trace) (heb : str)
  (out : str * str) : Prop :=
  if length (strip heb) <? 10
  then snd out = no_text_message
  else exists output,
      In (ServiceCall (lit "gpt-4.1-mini") (prompt_of heb target_style extra)
            (Return output)) tr
      /\ snd out = strip (or_else output []).

Definition file_recorded (target_style extra : str) (tr : trace)
  (cached : str * list str) (result : str * list (str * str)) : Prop :=
  fst result = fst cached
  /\ map fst (snd result) = map page_label (seq 1 (length (snd cached)))
  /\ Forall2 (page_recorded target_style extra tr) (snd cached) (snd result).

(** The prompt as the template spells it, before the final [strip]. *)
Definition prompt_template (hebrew_text target_style extra : str) : str :=
  lit "You are a careful Hebrew-to-English translator." ++ [LF]
  ++ lit "Translate the text accurately. Do not add commentary." ++ [LF]
  ++ lit "Preserve paragraph structure." ++ [LF]
  ++ [LF]
  ++ lit "Target style: " ++ target_style ++ [LF]
  ++ lit "Extra instructions: " ++ or_else (Some extra) (lit "None") ++ [LF]
  ++ [LF]
  ++ lit "HEBREW TEXT:" ++ [LF]
  ++ hebrew_text.

(** The style labels as the specification lists them. *)
Definition spec_style_options : list str :=
  [ lit "Clear and straightforward";
    lit "More literal / closer to Hebrew";
    lit "Warm tone (still accurate)";
    lit "Academic / formal" ].

(** ** The script around the run *)

(** What the script puts on the page, around the events of the run. *)
Inductive page_event :=
| PageConfig (page_title layout : str)
| Title (text : str)
| Write (text : str)
| Error (msg : str)
| Selectbox (label : str) (options : list str) (index : nat)
| TextArea (label value : str) (height : nat)
| FileUploader (label : str) (types : list str) (accept_multiple_files : bool)
| Button (label type : str)
| OfRun (ev : event bytes exc).

Fixpoint str_eqb (a b : str) : bool :=
  match a, b with
  | [], [] => true
  | x :: a', y :: b' => (x =? y)%N && str_eqb a' b'
  | _, _ => false
  end.

(** [d.get(key, default)] for a dictionary given by its items. *)
Fixpoint dict_get (d : list (str * str)) (key default : str) : str :=
  match d with
  | [] => default
  | (k, v) :: d' => if str_eqb k key then v else dict_get d' key default
  end.

Definition page_header : list page_event :=
  [ PageConfig (lit "Hebrew Pages " ++ [8594%N] ++ lit " Translation "
                ++ [8594%N] ++ lit " Word Doc") (lit "wide");
    Title (lit "Hebrew Pages " ++ [8594%N] ++ lit " Translation "
           ++ [8594%N] ++ lit " Export to Word");
    Write (lit "Upload PDFs (best if selectable text). The app translates page-by-page and exports one .docx.") ].

Definition page_widgets : list page_event :=
  [ Selectbox (lit "English translation style") target_style_options 0;
    TextArea (lit "Optional instructions") [] 90;
    FileUploader (lit "Upload PDF files") [lit "pdf"] true;
    Button (lit "Translate and build Word document") (lit "primary") ].

(** One execution of the script.  [secrets] are the items of [st.secrets];
    [target_style], [extra_instructions], [uploads] and [run_btn] are what
    the four widgets return; [responses_create] is the client made from the
    key. *)
Definition script (secrets : list (str * str))
  (target_style extra_instructions : str)
  (uploads : list (uploaded_file bytes)) (run_btn : bool)
  : outcome exc unit * list page_event :=
  let api_key := strip (dict_get secrets (lit "OPENAI_API_KEY") []) in
  match api_key with
  | [] =>
      (Raise StopException,
       page_header
       ++ [Error (lit "Missing OPENAI_API_KEY. In Streamlit Cloud: App settings "
                  ++ [8594%N] ++ lit " Secrets " ++ [8594%N]
                  ++ lit " add OPENAI_API_KEY.")])
  | _ :: _ =>
      if run_btn
      then
        let '(o, tr) := run uploads target_style extra_instructions [] in
        (o, page_header ++ page_widgets ++ map OfRun tr)
      else (Return tt, page_header ++ page_widgets)
  end.

(** ** Properties of the string operations *)

Unset Implicit Arguments.

Lemma startswith_spec (p s : str) :
  startswith p s = true <-> exists b, s = p ++ b.
Proof.
  revert s. induction p as [|a p IH]; intros s; simpl.
  - split; [intros _; now exists s | reflexivity].
  - destruct s as [|c s].
    + split; [discriminate | intros [b Hb]; discriminate].
    + rewrite andb_true_iff, N.eqb_eq, IH. split.
      * intros [-> [b ->]]. now exists b.
      * intros [b Hb]. injection Hb as -> ->. split; [reflexivity | now exists b].
Qed.

Lemma contains_spec (p s : str) :
  contains p s = true <-> exists a b, s = a ++ p ++ b.
Proof.
  induction s as [|c s IH].
  - simpl. rewrite orb_false_r, startswith_spec. split.
    + intros [b Hb]. now exists [], b.
    + intros [a [b Hab]]. symmetry in Hab.
      apply app_eq_nil in Hab as [-> Hab]. apply app_eq_nil in Hab as [-> ->].
      now exists [].
  - simpl. rewrite orb_true_iff, startswith_spec, IH. split.
    + intros [[b Hb] | [a [b Hab]]].
      * now exists [], b.
      * exists (c :: a), b. now rewrite Hab.
    + intros [[|x a] [b Hab]].
      * left. now exists b.
      * right. injection Hab as -> ->. now exists a, b.
Qed.

Lemma contains_false_infix (p a s b : str) :
  contains p (a ++ s ++ b) = false -> contains p s = false.
Proof.
  intros H. destruct (contains p s) eqn:E; [|reflexivity].
  apply contains_spec in E as [x [y ->]].
  assert (contains p (a ++ (x ++ p ++ y) ++ b) = true) as H'.
  { apply contains_spec. exists (a ++ x), (y ++ b).
    now rewrite <- !app_assoc. }
  congruence.
Qed.

Lemma contains_single (c : char) (s : str) :
  contains [c] s = false <-> ~ In c s.
Proof.
  induction s as [|x s IH]; simpl.
  - tauto.
  - rewrite andb_true_r, orb_false_iff, IH, N.eqb_neq. intuition congruence.
Qed.

Lemma dropwhile_decomp (p : char -> bool) (s : str) :
  exists a, s = a ++ dropwhile p s /\ forallb p a = true.
Proof.
  induction s as [|c s [a [Ha Hp]]]; simpl.
  - now exists [].
  - destruct (p c) eqn:E.
    + exists (c :: a). simpl. rewrite E, Hp. now rewrite <- Ha.
    + now exists [].
Qed.

Lemma dropwhile_head (p : char -> bool) (s : str) c t :
  dropwhile p s = c :: t -> p c = false.
Proof.
  induction s as [|x s IH]; simpl; [discriminate|].
  destruct (p x) eqn:E; [exact IH|].
  intros H. injection H as -> _. exact E.
Qed.

Lemma dropwhile_idem (p : char -> bool) (s : str) :
  dropwhile p (dropwhile p s) = dropwhile p s.
Proof.
  induction s as [|x s IH]; simpl; [reflexivity|].
  destruct (p x) eqn:E; [exact IH|]. simpl. now rewrite E.
Qed.

Lemma dropwhile_all (p : char -> bool) (a s : str) :
  forallb p a = true -> dropwhile p (a ++ s) = dropwhile p s.
Proof.
  induction a as [|x a IH]; simpl; [reflexivity|].
  intros H. apply andb_true_iff in H as [-> H]. now apply IH.
Qed.

Lemma rstrip_decomp (s : str) :
  exists b, s = rstrip s ++ b /\ forallb isspace b = true.
Proof.
  unfold rstrip. destruct (dropwhile_decomp isspace (rev s)) as [a [Ha Hp]].
  exists (rev a). split.
  - rewrite <- rev_app_distr, <- Ha. now rewrite rev_involutive.
  - rewrite forallb_forall in *. intros x Hx. apply Hp. now apply in_rev.
Qed.

Lemma strip_decomp (s : str) :
  exists a b, s = a ++ strip s ++ b
              /\ forallb isspace a = true /\ forallb isspace b = true.
Proof.
  unfold strip, lstrip.
  destruct (dropwhile_decomp isspace s) as [a [Ha Hpa]].
  destruct (rstrip_decomp (dropwhile isspace s)) as [b [Hb Hpb]].
  exists a, b. rewrite <- Hb. auto.
Qed.

Lemma rstrip_last (s t : str) c : rstrip s = t ++ [c] -> isspace c = false.
Proof.
  unfold rstrip. intros H.
  apply (f_equal (@rev char)) in H.
  rewrite rev_involutive, rev_app_distr in H. simpl in H.
  now apply dropwhile_head in H.
Qed.

Lemma strip_stripped (s : str) : stripped (strip s).
Proof.
  split.
  - intros c t H. unfold strip in H.
    destruct (rstrip_decomp (lstrip s)) as [b [Hb _]].
    rewrite H in Hb. simpl in Hb. unfold lstrip in Hb.
    now apply dropwhile_head in Hb.
  - intros t c H. unfold strip in H. now apply rstrip_last in H.
Qed.

Lemma stripped_strip (s : str) : stripped s -> strip s = s.
Proof.
  intros [Hh Hl]. unfold strip, lstrip.
  assert (dropwhile isspace s = s) as ->.
  { destruct s as [|c t]; [reflexivity|]. simpl.
    now rewrite (Hh c t eq_refl). }
  unfold rstrip.
  assert (dropwhile isspace (rev s) = rev s) as ->.
  { destruct (rev s) as [|c t] eqn:E; [reflexivity|]. simpl.
    apply (f_equal (@rev char)) in E. rewrite rev_involutive in E. simpl in E.
    now rewrite (Hl _ _ E). }
  apply rev_involutive.
Qed.

Lemma strip_idem (s : str) : strip (strip s) = strip s.
Proof. apply stripped_strip, strip_stripped. Qed.

Lemma strip_nil : strip [] = [].
Proof. reflexivity. Qed.

Lemma strip_space_cons (c : char) (s : str) :
  isspace c = true -> strip (c :: s) = strip s.
Proof. intros H. unfold strip, lstrip. simpl. now rewrite H. Qed.

Lemma strip_contains_false (p s : str) :
  contains p s = false -> contains p (strip s) = false.
Proof.
  destruct (strip_decomp s) as [a [b [H _]]]. intros Hc.
  rewrite H in Hc. now apply contains_false_infix in Hc.
Qed.

Lemma contains_pair_cons (a b c : char) (t : str) :
  contains [a; b] (c :: t) = (a =? c)%N && startswith [b] t || contains [a; b] t.
Proof. destruct t; reflexivity. Qed.

Lemma contains_cons_false (p : str) (c : char) (t : str) :
  contains p (c :: t) = false -> contains p t = false.
Proof. simpl. intros H. now apply orb_false_iff in H. Qed.

(** *** [str.replace] *)

Lemma replace_single (a b : char) (s : str) :
  replace [a] [b] s = map (fun c => if (a =? c)%N then b else c) s.
Proof.
  unfold replace. induction s as [|c s IH]; simpl; [reflexivity|].
  rewrite andb_true_r. destruct (a =? c)%N; simpl; now rewrite IH.
Qed.

Lemma replace_single_absent (a b : char) (s : str) :
  a <> b -> ~ In a (replace [a] [b] s).
Proof.
  intros Hab. rewrite replace_single. intros H.
  apply in_map_iff in H as [c [Hc _]].
  destruct (a =? c)%N eqn:E; [congruence|].
  apply N.eqb_neq in E. congruence.
Qed.

Lemma replace_absent (a : char) (old new s : str) :
  ~ In a s -> replace (a :: old) new s = s.
Proof.
  unfold replace. induction s as [|c s IH]; [reflexivity|].
  intros H. cbn [replace_from startswith].
  assert ((a =? c)%N = false) as ->.
  { apply N.eqb_neq. intros ->. apply H. now left. }
  simpl. rewrite IH; [reflexivity|]. intros Hin. apply H. now right.
Qed.

(** *** [re.sub] on runs of a character class *)

Lemma re_sub_runs_in (cls : char -> bool) (n : nat) (repl : str) (x : char) :
  forall s run,
    In x (re_sub_runs_from cls n repl run s) ->
    In x repl \/ In x run \/ In x s.
Proof.
  induction s as [|c s IH]; intros run; simpl.
  - unfold flush. destruct (n <=? length run); [tauto|].
    rewrite <- in_rev. tauto.
  - destruct (cls c).
    + intros H. apply IH in H. simpl in H. tauto.
    + rewrite in_app_iff. unfold flush. simpl.
      destruct (n <=? length run).
      * intros [H | [H | H]]; [tauto | tauto |].
        apply IH in H. simpl in H. tauto.
      * rewrite <- in_rev. intros [H | [H | H]]; [tauto | tauto |].
        apply IH in H. simpl in H. tauto.
Qed.

(** Horizontal white space: [re.sub(r"[ \t]+", " ", s)]. *)

Lemma flush_hspace (run : str) :
  flush 1 [SP] run = match run with [] => [] | _ :: _ => [SP] end.
Proof. destruct run; reflexivity. Qed.

Lemma is_hspace_false (c : char) : is_hspace c = false -> c <> SP /\ c <> TAB.
Proof.
  unfold is_hspace. intros H. apply orb_false_iff in H as [H1 H2].
  now apply N.eqb_neq in H1, H2.
Qed.

Lemma sub_hspace_in (x : char) :
  forall s run,
    In x (re_sub_runs_from is_hspace 1 [SP] run s) ->
    x = SP \/ (In x s /\ is_hspace x = false).
Proof.
  induction s as [|c s IH]; intros run; simpl.
  - rewrite flush_hspace. destruct run; simpl; intuition.
  - destruct (is_hspace c) eqn:E.
    + intros H. apply IH in H. tauto.
    + rewrite in_app_iff, flush_hspace. simpl.
      intros [H | [H | H]].
      * destruct run; simpl in H; intuition.
      * subst x. tauto.
      * apply IH in H. tauto.
Qed.

Lemma sub_hspace_no_pair :
  forall s run,
    contains [SP; SP] (re_sub_runs_from is_hspace 1 [SP] run s) = false.
Proof.
  induction s as [|c s IH]; intros run; simpl re_sub_runs_from.
  - rewrite flush_hspace. destruct run; reflexivity.
  - destruct (is_hspace c) eqn:E; [apply IH|].
    apply is_hspace_false in E as [E _].
    assert ((SP =? c)%N = false) as Ec by (apply N.eqb_neq; congruence).
    assert (contains [SP; SP] (c :: re_sub_runs_from is_hspace 1 [SP] [] s) = false) as H.
    { rewrite contains_pair_cons, Ec, IH. reflexivity. }
    rewrite flush_hspace. destruct run; simpl app; [exact H|].
    rewrite contains_pair_cons, H. cbn [startswith]. rewrite Ec.
    now rewrite andb_false_r.
Qed.

Lemma contains_pair_repeat_ge2 (a : char) (k : nat) (s : str) :
  contains [a; a] (repeat a (S (S k)) ++ s) = true.
Proof. simpl. now rewrite N.eqb_refl. Qed.

Lemma repeat_shift (a : char) (k : nat) (s : str) :
  repeat a k ++ a :: s = repeat a (S k) ++ s.
Proof.
  change (a :: s) with ([a] ++ s). rewrite app_assoc, <- repeat_cons.
  reflexivity.
Qed.

Lemma sub_hspace_fixed :
  forall s k,
    ~ In TAB s ->
    contains [SP; SP] (repeat SP k ++ s) = false ->
    re_sub_runs_from is_hspace 1 [SP] (repeat SP k) s = repeat SP k ++ s.
Proof.
  induction s as [|c s IH]; intros k Htab Hpair; simpl re_sub_runs_from.
  - rewrite app_nil_r. destruct k as [|[|k]]; [reflexivity | reflexivity |].
    now rewrite contains_pair_repeat_ge2 in Hpair.
  - destruct (is_hspace c) eqn:E.
    + assert (c = SP) as ->.
      { unfold is_hspace in E. apply orb_true_iff in E as [E | E];
          apply N.eqb_eq in E; [exact E|]. subst c. exfalso. apply Htab. now left. }
      change (SP :: repeat SP k) with (repeat SP (S k)).
      rewrite repeat_shift in Hpair |- *. apply IH; [|exact Hpair].
      intros H. apply Htab. now right.
    + assert (re_sub_runs_from is_hspace 1 [SP] [] s = s) as ->.
      { apply (IH 0).
        - intros H. apply Htab. now right.
        - simpl. apply (contains_false_infix [SP; SP] (repeat SP k ++ [c]) s []).
          now rewrite app_nil_r, <- app_assoc. }
      destruct k as [|[|k]]; [reflexivity | reflexivity |].
      now rewrite contains_pair_repeat_ge2 in Hpair.
Qed.

(** Line feeds: [re.sub(r"\n{3,}", "\n\n", s)]. *)

Lemma flush_lf (k : nat) :
  flush 3 [LF; LF] (repeat LF k) = repeat LF (if 3 <=? k then 2 else k).
Proof.
  unfold flush. rewrite repeat_length.
  destruct (3 <=? k); [reflexivity | apply rev_repeat].
Qed.

Lemma is_lf_true (c : char) : is_lf c = true -> c = LF.
Proof. apply N.eqb_eq. Qed.

Lemma is_lf_false (c : char) : is_lf c = false -> (LF =? c)%N = false.
Proof. unfold is_lf. now rewrite N.eqb_sym. Qed.

Lemma contains_triple_cons (a c : char) (t : str) :
  contains [a; a; a] (c :: t)
  = (a =? c)%N && startswith [a; a] t || contains [a; a; a] t.
Proof. destruct t; reflexivity. Qed.

(** Fewer than three line feeds before another character add no run of
    three. *)
Lemma contains_triple_short (j : nat) (c : char) (t : str) :
  j < 3 -> (LF =? c)%N = false ->
  contains [LF; LF; LF] (repeat LF j ++ c :: t) = contains [LF; LF; LF] (c :: t).
Proof.
  intros Hj Hc.
  assert (contains [LF; LF; LF] (LF :: c :: t) = contains [LF; LF; LF] (c :: t)) as H1.
  { rewrite contains_triple_cons. cbn [startswith]. rewrite Hc.
    now rewrite andb_false_r. }
  assert (contains [LF; LF; LF] (LF :: LF :: c :: t) = contains [LF; LF; LF] (c :: t)) as H2.
  { rewrite contains_triple_cons, H1. cbn [startswith]. rewrite Hc.
    now rewrite !andb_false_r. }
  destruct j as [|[|[|j]]]; [reflexivity | exact H1 | exact H2 | lia].
Qed.

Lemma contains_triple_repeat_ge3 (k : nat) (s : str) :
  contains [LF; LF; LF] (repeat LF (S (S (S k))) ++ s) = true.
Proof. reflexivity. Qed.

Lemma flush_lf_short (k : nat) : (if 3 <=? k then 2 else k) < 3.
Proof. destruct (Nat.leb_spec 3 k); lia. Qed.

Lemma sub_lf_no_triple :
  forall s k,
    contains [LF; LF; LF] (re_sub_runs_from is_lf 3 [LF; LF] (repeat LF k) s)
    = false.
Proof.
  induction s as [|c s IH]; intros k; simpl re_sub_runs_from.
  - rewrite flush_lf.
    pose proof (flush_lf_short k) as Hj.
    destruct (if 3 <=? k then 2 else k) as [|[|[|j]]]; [reflexivity .. | lia].
  - destruct (is_lf c) eqn:E.
    + apply is_lf_true in E. subst c. apply (IH (S k)).
    + apply is_lf_false in E.
      rewrite flush_lf, contains_triple_short; [|apply flush_lf_short|exact E].
      rewrite contains_triple_cons, E. apply (IH 0).
Qed.

Lemma sub_lf_fixed :
  forall s k,
    contains [LF; LF; LF] (repeat LF k ++ s) = false ->
    re_sub_runs_from is_lf 3 [LF; LF] (repeat LF k) s = repeat LF k ++ s.
Proof.
  induction s as [|c s IH]; intros k H; simpl re_sub_runs_from.
  - rewrite app_nil_r, flush_lf.
    destruct k as [|[|[|k]]]; [reflexivity .. |].
    now rewrite contains_triple_repeat_ge3 in H.
  - destruct (is_lf c) eqn:E.
    + apply is_lf_true in E. subst c.
      rewrite repeat_shift in H |- *. now apply (IH (S k)).
    + pose proof (IH 0) as IH0. simpl in IH0. rewrite IH0.
      * rewrite flush_lf. destruct k as [|[|[|k]]]; [reflexivity .. |].
        now rewrite contains_triple_repeat_ge3 in H.
      * apply (contains_false_infix _ (repeat LF k ++ [c]) s []).
        now rewrite app_nil_r, <- app_assoc.
Qed.

Lemma sub_lf_head :
  forall s k,
    startswith [SP] (re_sub_runs_from is_lf 3 [LF; LF] (repeat LF k) s)
    = match k with O => startswith [SP] s | S _ => false end.
Proof.
  induction s as [|c s IH]; intros k; simpl re_sub_runs_from.
  - rewrite flush_lf. pose proof (flush_lf_short k) as Hj.
    destruct k as [|k]; [reflexivity|].
    destruct (3 <=? S k); reflexivity.
  - destruct (is_lf c) eqn:E.
    + apply is_lf_true in E. subst c.
      change (LF :: repeat LF k) with (repeat LF (S k)). rewrite (IH (S k)).
      destruct k; reflexivity.
    + rewrite flush_lf. destruct k as [|k]; [reflexivity|].
      destruct (3 <=? S k); reflexivity.
Qed.

Lemma contains_pair_skip_lf (j : nat) (t : str) :
  contains [SP; SP] (repeat LF j ++ t) = contains [SP; SP] t.
Proof.
  induction j as [|j IH]; [reflexivity|].
  simpl app. now rewrite contains_pair_cons, IH.
Qed.

Lemma sub_lf_no_pair :
  forall s k,
    contains [SP; SP] s = false ->
    contains [SP; SP] (re_sub_runs_from is_lf 3 [LF; LF] (repeat LF k) s)
    = false.
Proof.
  induction s as [|c s IH]; intros k H; simpl re_sub_runs_from.
  - rewrite flush_lf. rewrite <- (app_nil_r (repeat LF _)).
    now rewrite contains_pair_skip_lf.
  - rewrite contains_pair_cons in H. apply orb_false_iff in H as [Hh Ht].
    destruct (is_lf c) eqn:E.
    + apply is_lf_true in E. subst c. now apply (IH (S k)).
    + rewrite flush_lf, contains_pair_skip_lf, contains_pair_cons.
      pose proof (sub_lf_head s 0) as Hd. cbn [repeat] in Hd. rewrite Hd, Hh.
      now apply (IH 0).
Qed.

(** *** What is kept: the characters that are not white space *)

Lemma visible_app (a b : str) : visible (a ++ b) = visible a ++ visible b.
Proof. apply filter_app. Qed.

Lemma visible_cons (c : char) (s : str) :
  visible (c :: s) = if isspace c then visible s else c :: visible s.
Proof. unfold visible. simpl. now destruct (isspace c). Qed.

Lemma visible_spaces (a : str) : forallb isspace a = true -> visible a = [].
Proof.
  induction a as [|c a IH]; simpl; [reflexivity|].
  intros H. apply andb_true_iff in H as [-> H]. now apply IH.
Qed.

Lemma visible_strip (s : str) : visible (strip s) = visible s.
Proof.
  destruct (strip_decomp s) as [a [b [H [Ha Hb]]]].
  rewrite H at 2. rewrite !visible_app, (visible_spaces a Ha), (visible_spaces b Hb).
  now rewrite app_nil_r.
Qed.

Lemma visible_replace_crlf :
  forall s skip,
    forallb isspace (firstn skip s) = true ->
    visible (replace_from [CR; LF] [LF] skip s) = visible s.
Proof.
  induction s as [|c s IH]; intros skip H; [reflexivity|].
  destruct skip as [|k].
  - cbn [replace_from]. destruct (startswith [CR; LF] (c :: s)) eqn:E.
    + apply startswith_spec in E as [b Hb]. injection Hb as -> ->.
      change (length [CR; LF] - 1) with 1.
      rewrite visible_app, (IH 1 eq_refl). reflexivity.
    + now rewrite !visible_cons, (IH 0 eq_refl).
  - cbn [replace_from]. cbn [firstn forallb] in H.
    apply andb_true_iff in H as [Hc H].
    now rewrite (IH k H), visible_cons, Hc.
Qed.

Lemma visible_replace_cr (s : str) : visible (replace [CR] [LF] s) = visible s.
Proof.
  rewrite replace_single. induction s as [|c s IH]; [reflexivity|].
  cbn [map]. rewrite !visible_cons, IH.
  destruct (CR =? c)%N eqn:E; [|reflexivity].
  apply N.eqb_eq in E. now subst c.
Qed.

Lemma visible_re_sub_runs (cls : char -> bool) (n : nat) (repl : str) :
  (forall c, cls c = true -> isspace c = true) ->
  forallb isspace repl = true ->
  forall s run,
    forallb isspace run = true ->
    visible (re_sub_runs_from cls n repl run s) = visible s.
Proof.
  intros Hcls Hrepl.
  assert (forall run, forallb isspace run = true -> visible (flush n repl run) = [])
    as Hflush.
  { intros run Hrun. apply visible_spaces. unfold flush.
    destruct (n <=? length run); [exact Hrepl|].
    rewrite forallb_forall in *. intros x Hx. apply Hrun. now apply in_rev. }
  induction s as [|c s IH]; intros run Hrun; simpl re_sub_runs_from.
  - now apply Hflush.
  - destruct (cls c) eqn:E.
    + rewrite IH; [|simpl; now rewrite (Hcls c E)].
      now rewrite visible_cons, (Hcls c E).
    + rewrite visible_app, (Hflush run Hrun). cbn [app].
      now rewrite !visible_cons, (IH [] eq_refl).
Qed.

Lemma visible_normalize (text : str) :
  visible (normalize_whitespace text) = visible text.
Proof.
  unfold normalize_whitespace, re_sub_runs.
  rewrite visible_strip.
  rewrite visible_re_sub_runs;
    [| intros c H; apply is_lf_true in H; now subst c | reflexivity | reflexivity].
  rewrite visible_re_sub_runs; [| | reflexivity | reflexivity].
  - rewrite visible_replace_cr. apply (visible_replace_crlf text 0 eq_refl).
  - intros c H. unfold is_hspace in H.
    apply orb_true_iff in H as [H | H]; apply N.eqb_eq in H; now subst c.
Qed.

(** *** The normal form *)

Lemma strip_in (x : char) (s : str) : In x (strip s) -> In x s.
Proof.
  destruct (strip_decomp s) as [a [b [H _]]]. intros Hx.
  rewrite H, !in_app_iff. tauto.
Qed.

Lemma normalize_normal_form (text : str) : normal_form (normalize_whitespace text).
Proof.
  unfold normalize_whitespace, re_sub_runs. repeat split.
  - intros H. apply strip_in, re_sub_runs_in in H.
    destruct H as [H | [H | H]];
      [simpl in H; intuition discriminate | contradiction |].
    apply re_sub_runs_in in H.
    destruct H as [H | [H | H]];
      [simpl in H; intuition discriminate | contradiction |].
    revert H. now apply replace_single_absent.
  - intros H. apply strip_in, re_sub_runs_in in H.
    destruct H as [H | [H | H]];
      [simpl in H; intuition discriminate | contradiction |].
    apply sub_hspace_in in H. destruct H as [H | [_ H]]; discriminate.
  - apply strip_contains_false, (sub_lf_no_pair _ 0), sub_hspace_no_pair.
  - apply strip_contains_false, (sub_lf_no_triple _ 0).
  - apply strip_stripped.
  - apply strip_stripped.
Qed.

Lemma normal_form_fixed (s : str) : normal_form s -> normalize_whitespace s = s.
Proof.
  intros (Hcr & Htab & Hpair & Htriple & Hstrip).
  unfold normalize_whitespace, re_sub_runs.
  rewrite (@replace_absent CR [LF] [LF] s Hcr), (@replace_absent CR [] [LF] s Hcr).
  pose proof (@sub_hspace_fixed s 0 Htab Hpair) as Hh.
  pose proof (@sub_lf_fixed s 0 Htriple) as Hl.
  cbn [repeat app] in Hh, Hl. rewrite Hh, Hl.
  now apply stripped_strip.
Qed.

(** *** The normaliser and the specification's wording *)

Lemma replace_crlf_cr : forall s : str,
  replace [CR] [LF] (replace [CR; LF] [LF] s) = spec_line_endings s.
Proof.
  set (cr_to_lf := map (fun c => if (CR =? c)%N then LF else c)).
  assert (forall s : str,
            cr_to_lf (replace_from [CR; LF] [LF] 0 s) = spec_line_endings s
            /\ forall c,
                cr_to_lf (replace_from [CR; LF] [LF] 0 (c :: s))
                = spec_line_endings (c :: s)) as H.
  { induction s as [|d s [IH0 IH1]].
    - split; [reflexivity|]. intros c.
      cbn [replace_from startswith spec_line_endings].
      rewrite (N.eqb_sym c CR), andb_false_r.
      unfold cr_to_lf. cbn [map]. now destruct (CR =? c)%N.
    - split; [exact (IH1 d)|]. intros c.
      cbn [replace_from startswith spec_line_endings].
      rewrite (N.eqb_sym c CR), (N.eqb_sym d LF), andb_true_r.
      destruct (CR =? c)%N eqn:Ec; cbn [andb].
      + destruct (LF =? d)%N eqn:Ed.
        * cbn [length Nat.sub app]. unfold cr_to_lf at 1. cbn [map].
          change (CR =? LF)%N with false. cbv iota.
          fold cr_to_lf. now rewrite IH0.
        * unfold cr_to_lf at 1. cbn [map]. rewrite Ec. fold cr_to_lf.
          f_equal. exact (IH1 d).
      + unfold cr_to_lf at 1. cbn [map]. rewrite Ec. fold cr_to_lf.
        f_equal. exact (IH1 d). }
  intros s. rewrite replace_single. apply H.
Qed.

Lemma runs_head (cls : char -> bool) (c : char) (s : str) :
  exists r g, runs cls (c :: s) = (cls c, c :: r) :: g.
Proof.
  revert c. induction s as [|d s IH]; intros c.
  - now exists [], [].
  - destruct (IH d) as (r & g & H).
    change (runs cls (c :: d :: s))
      with (match runs cls (d :: s) with
            | [] => [(cls c, [c])]
            | (b, r) :: g =>
                if Bool.eqb (cls c) b then (b, c :: r) :: g
                else (cls c, [c]) :: (b, r) :: g
            end).
    rewrite H. destruct (Bool.eqb (cls c) (cls d)) eqn:E.
    + apply eqb_prop in E. rewrite <- E. now exists (d :: r), g.
    + now exists [], ((cls d, d :: r) :: g).
Qed.

(** The runs are a cutting of the text: put together again they give it
    back. *)
Lemma runs_concat (cls : char -> bool) (s : str) :
  concat (map snd (runs cls s)) = s.
Proof.
  induction s as [|c s IH]; [reflexivity|].
  cbn [runs]. destruct (runs cls s) as [|[b r] g]; [now subst s|].
  destruct (Bool.eqb (cls c) b); cbn [map concat snd app] in *; now rewrite IH.
Qed.

(** No run is empty, and its characters are all in the class or all
    outside it, as its mark says. *)
Lemma runs_uniform (cls : char -> bool) (s : str) :
  Forall (fun run => snd run <> []
                     /\ Forall (fun c => cls c = fst run) (snd run))
         (runs cls s).
Proof.
  induction s as [|c s IH]; [constructor|].
  cbn [runs]. destruct (runs cls s) as [|[b r] g].
  - constructor; [|constructor]. split; [discriminate | now constructor].
  - destruct (Bool.eqb (cls c) b) eqn:E.
    + apply eqb_prop in E. inversion IH as [|x l [_ Hr] Hg]; subst.
      constructor; [|exact Hg]. split; [discriminate | now constructor].
    + constructor; [|exact IH]. split; [discriminate | now constructor].
Qed.

(** The runs are maximal: two neighbours never carry the same mark. *)
Lemma runs_alternate (cls : char -> bool) (s : str) :
  forall before b1 r1 b2 r2 after,
    runs cls s = before ++ (b1, r1) :: (b2, r2) :: after -> b1 <> b2.
Proof.
  induction s as [|c s IH]; intros before b1 r1 b2 r2 after H.
  - now destruct before.
  - cbn [runs] in H. destruct (runs cls s) as [|[b r] g] eqn:Eg.
    + destruct before as [|x [|y before]]; discriminate.
    + destruct (Bool.eqb (cls c) b) eqn:E.
      * destruct before as [|x before].
        -- injection H as <- <- Hg. apply (IH [] b r b2 r2 after).
           now rewrite Hg.
        -- injection H as _ Hg. apply (IH ((b, r) :: before) b1 r1 b2 r2 after).
           now rewrite Hg.
      * destruct before as [|x before].
        -- injection H as <- _ <- _ _. intros Heq. rewrite Heq in E.
           now rewrite eqb_reflx in E.
        -- injection H as _ Hg. now apply (IH before b1 r1 b2 r2 after).
Qed.

Lemma spec_collapse_cons_false (cls : char -> bool) (n : nat) (repl : str)
  (c : char) (s : str) :
  cls c = false ->
  spec_collapse cls n repl (c :: s) = c :: spec_collapse cls n repl s.
Proof.
  intros Hc. unfold spec_collapse. cbn [runs].
  destruct (runs cls s) as [|[b r] g]; rewrite Hc.
  - reflexivity.
  - destruct b; cbn [Bool.eqb flat_map fst snd andb app]; reflexivity.
Qed.

Lemma runs_app_run (cls : char -> bool) (l s : str) :
  l <> [] ->
  forallb cls l = true ->
  match s with [] => True | c :: _ => cls c = false end ->
  runs cls (l ++ s) = (true, l) :: runs cls s.
Proof.
  intros Hl Hall Hs. induction l as [|c l IH]; [contradiction|].
  cbn [forallb] in Hall. apply andb_true_iff in Hall as [Hc Hall].
  destruct l as [|d l].
  - cbn [app runs]. rewrite Hc. destruct s as [|x s]; [reflexivity|].
    destruct (runs_head cls x s) as (r & g & ->). now rewrite Hs.
  - change ((c :: d :: l) ++ s) with (c :: (d :: l) ++ s).
    cbn [runs]. rewrite (IH ltac:(discriminate) Hall), Hc. reflexivity.
Qed.

Lemma spec_collapse_app_run (cls : char -> bool) (n : nat) (repl l s : str) :
  l <> [] ->
  forallb cls l = true ->
  match s with [] => True | c :: _ => cls c = false end ->
  spec_collapse cls n repl (l ++ s)
  = (if n <=? length l then repl else l) ++ spec_collapse cls n repl s.
Proof.
  intros Hl Hall Hs. unfold spec_collapse.
  now rewrite (runs_app_run cls l s Hl Hall Hs).
Qed.

Lemma re_sub_runs_from_collapse (cls : char -> bool) (n : nat) (repl : str) :
  1 <= n ->
  forall s run,
    forallb cls run = true ->
    re_sub_runs_from cls n repl run s = spec_collapse cls n repl (rev run ++ s).
Proof.
  intros Hn.
  assert (forall run s,
            forallb cls run = true ->
            match s with [] => True | c :: _ => cls c = false end ->
            spec_collapse cls n repl (rev run ++ s)
            = flush n repl run ++ spec_collapse cls n repl s) as Hflush.
  { intros run s Hrun Hs. destruct run as [|x run].
    - unfold flush. cbn [length rev app].
      destruct n; [lia | reflexivity].
    - assert (rev (x :: run) <> []) as Hne.
      { intros H. apply (f_equal (@length char)) in H.
        rewrite length_rev in H. discriminate. }
      assert (forallb cls (rev (x :: run)) = true) as Hrev.
      { rewrite forallb_forall in *. intros y Hy. apply Hrun.
        now apply in_rev. }
      rewrite (spec_collapse_app_run cls n repl _ s Hne Hrev Hs).
      unfold flush. now rewrite length_rev. }
  induction s as [|c s IH]; intros run Hrun; cbn [re_sub_runs_from].
  - rewrite (Hflush run [] Hrun I). now rewrite app_nil_r.
  - destruct (cls c) eqn:Ec.
    + rewrite IH; [|cbn [forallb]; now rewrite Ec].
      cbn [rev]. now rewrite <- app_assoc.
    + rewrite (Hflush run (c :: s) Hrun Ec).
      now rewrite (spec_collapse_cons_false cls n repl c s Ec), (IH [] eq_refl).
Qed.

Lemma re_sub_runs_collapse (cls : char -> bool) (n : nat) (repl s : str) :
  1 <= n -> re_sub_runs cls n repl s = spec_collapse cls n repl s.
Proof.
  intros Hn. unfold re_sub_runs.
  now rewrite (re_sub_runs_from_collapse cls n repl Hn s [] eq_refl).
Qed.

Lemma normalize_strip_collapsed (text : str) :
  normalize_whitespace text = strip (spec_collapsed text).
Proof.
  unfold normalize_whitespace, spec_collapsed.
  rewrite replace_crlf_cr.
  now rewrite !re_sub_runs_collapse by lia.
Qed.

(** ** The normaliser *)

(** C4: [normalize_whitespace] is idempotent: normalising a normalised text
    changes nothing, for every text. *)
Theorem normalize_whitespace_idempotent (T : str) :
  normalize_whitespace (normalize_whitespace T) = normalize_whitespace T.
Proof. apply normal_form_fixed, normalize_normal_form. Qed.

(** C5: for every text the result of [normalize_whitespace] is the text
    with every CR LF and every lone CR turned into one line feed, then
    every run of spaces and tabs collapsed to one space, then every run of
    three or more line feeds collapsed to two, and finally the white space
    at its two ends taken away.  So the result has no carriage return, no
    tab, no two spaces in a row, no three line feeds in a row and no white
    space at its start or end, and its characters that are not white space
    are the ones of the input, in order.  The function is total and sends
    the empty text to the empty text. *)
Theorem normalize_whitespace_postcondition (text : str) :
  let out := normalize_whitespace text in
  ~ In CR out
  /\ ~ In TAB out
  /\ contains [SP; SP] out = false
  /\ contains [LF; LF; LF] out = false
  /\ strip out = out
  /\ stripped out
  /\ visible out = visible text
  /\ normalize_whitespace [] = []
  /\ out = strip (spec_collapse is_lf 3 [LF; LF]
                   (spec_collapse is_hspace 1 [SP] (spec_line_endings text)))
  /\ exists a b,
      spec_collapsed text = a ++ out ++ b
      /\ forallb isspace a = true /\ forallb isspace b = true.
Proof.
  intros out. destruct (normalize_normal_form text) as (H1 & H2 & H3 & H4 & H5).
  repeat split; try assumption.
  - now apply stripped_strip.
  - apply H5.
  - apply H5.
  - apply visible_normalize.
  - apply normalize_strip_collapsed.
  - unfold out. rewrite normalize_strip_collapsed. apply strip_decomp.
Qed.

(** ** The assembler *)

Lemma cons_hd_prepend (c : char) (l : list str) : cons_hd c l = prepend [c] l.
Proof. destruct l; reflexivity. Qed.

Lemma prepend_cons_hd (w : str) (c : char) (l : list str) :
  prepend w (cons_hd c l) = prepend (w ++ [c]) l.
Proof. destruct l; simpl; now rewrite <- ?app_assoc. Qed.

Lemma trimmed_nonempty_cons (x : str) (l : list str) :
  trimmed_nonempty (x :: l)
  = (if nonempty (strip x) then [strip x] else []) ++ trimmed_nonempty l.
Proof. unfold trimmed_nonempty. simpl. now destruct (nonempty (strip x)). Qed.

Lemma cons_hd_nonempty (c : char) (l : list str) : cons_hd c l <> [].
Proof. destruct l; discriminate. Qed.

Lemma split_from_nonempty (sep : str) (s : str) :
  forall skip, split_from sep skip s <> [].
Proof.
  induction s as [|c s IH]; intros skip; simpl; [discriminate|].
  destruct skip; [|apply IH].
  destruct (startswith sep (c :: s)); [discriminate | apply cons_hd_nonempty].
Qed.

Lemma segments_from_nonempty (s : str) :
  forall b, segments_from b s <> [].
Proof.
  induction s as [|c s IH]; intros b; cbn [segments_from]; [discriminate|].
  destruct b.
  - destruct (c =? LF)%N; [apply IH | apply cons_hd_nonempty].
  - destruct (startswith [LF; LF] (c :: s)); [discriminate | apply cons_hd_nonempty].
Qed.

Lemma trimmed_nonempty_space (c : char) (l : list str) :
  isspace c = true -> l <> [] ->
  trimmed_nonempty (cons_hd c l) = trimmed_nonempty l.
Proof.
  intros Hc Hl. destruct l as [|x l]; [contradiction|]. simpl.
  now rewrite !trimmed_nonempty_cons, (strip_space_cons _ _ Hc).
Qed.

(** Cutting at every pair of line feeds and cutting at every run of two or
    more line feeds leave the same paragraphs, once the pieces are trimmed
    and the empty ones dropped. *)
Lemma split_segments_bounded (n : nat) :
  forall s, length s <= n ->
    (forall w, trimmed_nonempty (prepend w (split [LF; LF] s))
               = trimmed_nonempty (prepend w (segments_from false s)))
    /\ trimmed_nonempty (split [LF; LF] s)
       = trimmed_nonempty (segments_from true s).
Proof.
  unfold split. induction n as [|n IH]; intros s Hlen.
  - destruct s; [split; reflexivity | simpl in Hlen; lia].
  - destruct s as [|c s']; [split; reflexivity|].
    simpl in Hlen. assert (length s' <= n) as Hs' by lia.
    destruct (IH s' Hs') as [IH1 IH2].
    cbn [split_from segments_from].
    destruct (startswith [LF; LF] (c :: s')) eqn:E.
    + apply startswith_spec in E as [s'' Hs]. injection Hs as -> ->.
      assert (length s'' <= n) as Hs'' by (simpl in Hs'; lia).
      destruct (IH s'' Hs'') as [_ IH2'].
      change (length [LF; LF] - 1) with 1.
      cbn [split_from segments_from]. rewrite N.eqb_refl. split.
      * intros w. cbn [prepend]. now rewrite !trimmed_nonempty_cons, IH2'.
      * now rewrite trimmed_nonempty_cons, IH2'.
    + split.
      * intros w. now rewrite !prepend_cons_hd, IH1.
      * destruct (c =? LF)%N eqn:Ec.
        -- apply N.eqb_eq in Ec. subst c.
           rewrite trimmed_nonempty_space;
             [exact IH2 | reflexivity | apply split_from_nonempty].
        -- now rewrite !cons_hd_prepend, IH1.
Qed.

Lemma split_paragraphs (translated : str) :
  trimmed_nonempty (split [LF; LF] translated) = spec_paragraphs translated.
Proof.
  destruct (split_segments_bounded (length translated) translated (le_n _))
    as [H _].
  specialize (H []). unfold spec_paragraphs.
  assert (forall l, l <> [] -> prepend [] l = l) as Hp
    by (intros [|x l] Hl; [contradiction | reflexivity]).
  rewrite !Hp in H;
    [exact H | apply segments_from_nonempty | apply split_from_nonempty].
Qed.

Lemma body_paragraphs (l : list str) :
  forall doc,
    body (fold_left build_docx_paragraph l doc)
    = body doc ++ map Paragraph (trimmed_nonempty l).
Proof.
  induction l as [|x l IH]; intros doc; simpl fold_left.
  - symmetry. apply app_nil_r.
  - rewrite IH, trimmed_nonempty_cons. unfold build_docx_paragraph.
    destruct (strip x); simpl; [reflexivity|].
    now rewrite <- app_assoc.
Qed.

Lemma body_page (doc : document) (page : str * str) :
  body (build_docx_page doc page) = body doc ++ spec_page_blocks page.
Proof.
  destruct page as [page_label translated]. unfold build_docx_page, spec_page_blocks.
  rewrite body_paragraphs, split_paragraphs. simpl. now rewrite <- app_assoc.
Qed.

Lemma body_pages (pages : list (str * str)) :
  forall doc,
    body (fold_left build_docx_page pages doc)
    = body doc ++ flat_map spec_page_blocks pages.
Proof.
  induction pages as [|page pages IH]; intros doc; simpl fold_left.
  - symmetry. apply app_nil_r.
  - rewrite IH, body_page. cbn [flat_map]. now rewrite <- app_assoc.
Qed.

Lemma body_file (doc : document) (item : str * list (str * str)) :
  body (build_docx_file doc item) = body doc ++ spec_file_blocks item.
Proof.
  destruct item as [file_label pages]. unfold build_docx_file, spec_file_blocks.
  simpl. rewrite body_pages. simpl. now rewrite <- !app_assoc.
Qed.

Lemma body_files (items : list (str * list (str * str))) :
  forall doc,
    body (fold_left build_docx_file items doc) = body doc ++ spec_blocks items.
Proof.
  unfold spec_blocks.
  induction items as [|item items IH]; intros doc; simpl fold_left.
  - symmetry. apply app_nil_r.
  - rewrite IH, body_file. cbn [flat_map]. now rewrite <- app_assoc.
Qed.

(** C2: for every list of (file label, list of (page label, translated
    text)), the body of the assembled document is, in the order of the
    input: for each file a level-1 heading with its label, then for each of
    its pages a level-2 heading with the page label followed by one
    paragraph per non-empty trimmed segment of the translated text cut at
    its runs of two or more line feeds (empty segments left out), then a
    page break. *)
Theorem build_docx_blocks (items : list (str * list (str * str))) :
  body (build_docx_document items)
  = flat_map
      (fun item =>
         Heading (fst item) 1
         :: flat_map
              (fun page =>
                 Heading (fst page) 2
                 :: map Paragraph
                      (filter nonempty
                         (map strip (segments_from false (snd page)))))
              (snd item)
         ++ [PageBreak])
      items.
Proof. unfold build_docx_document. now rewrite body_files. Qed.

(** ** The extractor *)

Lemma extract_pages_ok (doc : pdf_document exc) (texts : nat -> option str) :
  forall indices pages,
    (forall i, In i indices -> get_text doc i = Return (texts i)) ->
    extract_pages doc indices pages
    = Return (pages
              ++ map (fun i => normalize_whitespace (or_else (texts i) [])) indices).
Proof.
  induction indices as [|i rest IH]; intros pages H; cbn [extract_pages map].
  - now rewrite app_nil_r.
  - rewrite (H i (or_introl eq_refl)), IH.
    + now rewrite <- app_assoc.
    + intros j Hj. apply H. now right.
Qed.

(** C3: for a PDF that opens and whose [N] pages all give their text, the
    extractor returns a list of exactly [N] strings; the entry at index [i]
    is the normalised text of page [i], so the order is the page order; and
    a page without text ([None] or the empty string) gives the empty
    string. *)
Theorem extract_pdf_pages_text_pages
  (pdf_bytes : bytes) (doc : pdf_document exc) (texts : nat -> option str) :
  fitz_open pdf_bytes = Return doc ->
  (forall i, i < page_count doc -> get_text doc i = Return (texts i)) ->
  exists pages,
    extract_pdf_pages_text pdf_bytes = Return pages
    /\ length pages = page_count doc
    /\ (forall i, i < page_count doc ->
          nth_error pages i = Some (normalize_whitespace (or_else (texts i) [])))
    /\ (forall i, i < page_count doc ->
          or_else (texts i) [] = [] -> nth_error pages i = Some []).
Proof.
  intros Hopen Hpages.
  set (f := fun i => normalize_whitespace (or_else (texts i) [])).
  assert (forall i, i < page_count doc ->
            nth_error (map f (seq 0 (page_count doc))) i = Some (f i)) as Hnth.
  { intros i Hi. rewrite nth_error_map, nth_error_seq.
    destruct (Nat.ltb_spec i (page_count doc)); [reflexivity | lia]. }
  exists (map f (seq 0 (page_count doc))). repeat split.
  - unfold extract_pdf_pages_text. rewrite Hopen.
    rewrite (extract_pages_ok doc texts); [reflexivity|].
    intros i Hi. apply Hpages. apply in_seq in Hi. lia.
  - now rewrite length_map, length_seq.
  - exact Hnth.
  - intros i Hi Hempty. rewrite (Hnth i Hi). unfold f. now rewrite Hempty.
Qed.

(** ** The translator *)

Lemma dropwhile_app (p : char -> bool) (a b : str) :
  dropwhile p (a ++ b)
  = if forallb p a then dropwhile p b else dropwhile p a ++ b.
Proof.
  induction a as [|c a IH]; simpl; [reflexivity|].
  destruct (p c); [exact IH | reflexivity].
Qed.

Lemma rstrip_app_space (s : str) (c : char) :
  isspace c = true -> rstrip (s ++ [c]) = rstrip s.
Proof. intros H. unfold rstrip. rewrite rev_app_distr. simpl. now rewrite H. Qed.

Lemma rstrip_spaces (s : str) : forallb isspace s = true -> rstrip s = [].
Proof.
  intros H. unfold rstrip.
  assert (forallb isspace (rev s) = true) as Hr.
  { rewrite forallb_forall in *. intros x Hx. apply H. now apply in_rev. }
  rewrite <- (app_nil_r (rev s)), dropwhile_app, Hr. reflexivity.
Qed.

Lemma strip_app_space (s : str) (c : char) :
  isspace c = true -> strip (s ++ [c]) = strip s.
Proof.
  intros H. unfold strip, lstrip. rewrite dropwhile_app.
  destruct (forallb isspace s) eqn:E.
  - simpl. rewrite H. simpl.
    rewrite <- (app_nil_r s), dropwhile_app, E. reflexivity.
  - now apply rstrip_app_space.
Qed.

Lemma prompt_template_lf (hebrew_text target_style extra : str) :
  prompt_of hebrew_text target_style extra
  = strip (prompt_template hebrew_text target_style extra ++ [LF]).
Proof.
  unfold prompt_of, prompt_template. f_equal. now rewrite <- !app_assoc.
Qed.

Lemma stripped_app (a b : str) (x : char) :
  isspace x = false -> b <> [] -> stripped b -> stripped ((x :: a) ++ b).
Proof.
  intros Hx Hb [_ Hlast]. split.
  - intros c t H. injection H as <- _. exact Hx.
  - intros t c H. destruct (exists_last Hb) as [b' [y Hy]]. subst b.
    rewrite app_assoc in H. apply app_inj_tail in H as [_ <-].
    now apply (Hlast b' y).
Qed.

Lemma prompt_of_stripped (hebrew_text target_style extra : str) :
  stripped hebrew_text -> hebrew_text <> [] ->
  prompt_of hebrew_text target_style extra
  = prompt_template hebrew_text target_style extra.
Proof.
  intros Hs Hne. rewrite prompt_template_lf, strip_app_space by reflexivity.
  apply stripped_strip. unfold prompt_template.
  rewrite !app_assoc. rewrite <- !app_assoc.
  change (lit "You are a careful Hebrew-to-English translator.")
    with (89%N :: lit "ou are a careful Hebrew-to-English translator.").
  rewrite !app_assoc.
  rewrite <- app_comm_cons. rewrite !app_comm_cons.
  match goal with
  | |- stripped (?h ++ hebrew_text) =>
      destruct h as [|x a] eqn:E; [discriminate|];
      apply stripped_app; [|exact Hne|exact Hs]
  end.
  rewrite <- !app_assoc in E. injection E as <- _. reflexivity.
Qed.

Lemma contains_app (p a b : str) : contains p (a ++ p ++ b) = true.
Proof. apply contains_spec. now exists a, b. Qed.

Lemma translate_text_blank (hebrew_text target_style extra : str) (tr : trace) :
  strip hebrew_text = [] ->
  translate_text hebrew_text target_style extra tr = (Return [], tr).
Proof. intros H. unfold translate_text. now rewrite H. Qed.

Lemma translate_text_call (hebrew_text target_style extra : str) (tr : trace) :
  strip hebrew_text <> [] ->
  let prompt := prompt_of hebrew_text target_style extra in
  let response := responses_create tr (lit "gpt-4.1-mini") prompt in
  translate_text hebrew_text target_style extra tr
  = (match response with
     | Return output_text => Return (strip (or_else output_text []))
     | Raise e => Raise e
     end,
     tr ++ [ServiceCall (lit "gpt-4.1-mini") prompt response]).
Proof.
  intros H. unfold translate_text.
  destruct (strip hebrew_text); [contradiction|].
  unfold bind, call_service, ret. cbv zeta.
  now destruct (responses_create tr _ _).
Qed.

Lemma translated_of_short (heb target_style extra : str) (tr : trace) :
  length (strip heb) < 10 ->
  translated_of heb target_style extra tr = (Return no_text_message, tr).
Proof.
  intros H. unfold translated_of.
  destruct (Nat.ltb_spec (length (strip heb)) 10); [reflexivity | lia].
Qed.

Lemma translated_of_sufficient (heb target_style extra : str) (tr : trace) :
  10 <= length (strip heb) ->
  translated_of heb target_style extra tr
  = translate_text heb target_style extra tr.
Proof.
  intros H. unfold translated_of.
  destruct (Nat.ltb_spec (length (strip heb)) 10); [lia | reflexivity].
Qed.

(** C10: called on a text that is empty once stripped, [translate_text]
    returns the empty string and sends nothing; called on a text whose
    stripped form has 1 to 9 characters, it sends one request all the same.
    The fixed message for such texts is put in by the loop of the run, which
    does not call [translate_text] for them. *)
Theorem translate_text_without_threshold
  (blank short target_style extra : str) (tr : trace) :
  strip blank = [] ->
  1 <= length (strip short) <= 9 ->
  translate_text blank target_style extra tr = (Return [], tr)
  /\ snd (translate_text short target_style extra tr)
     = tr ++ [ServiceCall (lit "gpt-4.1-mini")
                (prompt_of short target_style extra)
                (responses_create tr (lit "gpt-4.1-mini")
                   (prompt_of short target_style extra))]
  /\ translated_of blank target_style extra tr = (Return no_text_message, tr)
  /\ translated_of short target_style extra tr = (Return no_text_message, tr).
Proof.
  intros Hblank Hshort. repeat split.
  - now apply translate_text_blank.
  - rewrite translate_text_call; [reflexivity|].
    intros E. rewrite E in Hshort. simpl in Hshort. lia.
  - apply translated_of_short. rewrite Hblank. simpl. lia.
  - apply translated_of_short. lia.
Qed.

(** ** The translation pass *)

Lemma progress_values_app (a b : trace) :
  progress_values (a ++ b) = progress_values a ++ progress_values b.
Proof. apply flat_map_app. Qed.

Lemma call_inputs_app (a b : trace) :
  call_inputs (a ++ b) = call_inputs a ++ call_inputs b.
Proof. apply flat_map_app. Qed.

Lemma translated_of_step (heb target_style extra : str) (tr : trace) :
  translated_of heb target_style extra tr
  = if sufficient heb
    then
      let response :=
        responses_create tr (lit "gpt-4.1-mini") (prompt_of heb target_style extra) in
      (match response with
       | Return output_text => Return (strip (or_else output_text []))
       | Raise e => Raise e
       end,
       tr ++ [ServiceCall (lit "gpt-4.1-mini") (prompt_of heb target_style extra)
                response])
    else (Return no_text_message, tr).
Proof.
  unfold sufficient.
  destruct (Nat.ltb_spec (length (strip heb)) 10) as [H | H]; cbn [negb].
  - now apply translated_of_short.
  - rewrite translated_of_sufficient by exact H.
    apply translate_text_call. intros E. rewrite E in H. simpl in H. lia.
Qed.

Lemma translate_pages_cons (target_style extra : str) (N : nat)
  (heb : str) (rest : list str) (i : nat) (page_outputs : list (str * str))
  (done : nat) (tr : trace) :
  translate_pages target_style extra N (heb :: rest) i page_outputs done tr
  = match translated_of heb target_style extra tr with
    | (Return translated, tr1) =>
        translate_pages target_style extra N rest (S i)
          (page_outputs ++ [(page_label i, translated)]) (S done)
          (tr1 ++ [Progress (progress_value N (S done))])
    | (Raise e, tr1) => (Raise e, tr1)
    end.
Proof.
  cbn [translate_pages]. unfold bind at 1.
  destruct (translated_of heb target_style extra tr) as [[translated | e] tr1];
    [|reflexivity].
  unfold bind, lift, emit, truediv, progress_value, page_label.
  rewrite Nat.add_1_r.
  destruct (Nat.max N 1) eqn:E; [lia | reflexivity].
Qed.

Lemma page_recorded_mono (target_style extra : str) (t1 t2 : trace)
  (heb : str) (out : str * str) :
  (forall ev, In ev t1 -> In ev t2) ->
  page_recorded target_style extra t1 heb out ->
  page_recorded target_style extra t2 heb out.
Proof.
  intros Hsub. unfold page_recorded.
  destruct (length (strip heb) <? 10); [trivial|].
  intros [output [Hin Hout]]. exists output. split; [now apply Hsub | exact Hout].
Qed.

Lemma pages_recorded_mono (target_style extra : str) (t1 t2 : trace)
  (pages : list str) (outs : list (str * str)) :
  (forall ev, In ev t1 -> In ev t2) ->
  Forall2 (page_recorded target_style extra t1) pages outs ->
  Forall2 (page_recorded target_style extra t2) pages outs.
Proof.
  intros Hsub H. induction H; constructor; [|assumption].
  now apply (page_recorded_mono target_style extra t1 t2).
Qed.

Lemma translate_pages_run (target_style extra : str) (N : nat) :
  forall pages i outs done tr0 o tr,
    translate_pages target_style extra N pages i outs done tr0 = (o, tr) ->
    exists new,
      tr = tr0 ++ new /\ existsb is_download new = false /\
      match o with
      | Return (outs', done') =>
          done' = done + length pages
          /\ existsb is_failed_call new = false
          /\ progress_values new
             = map (progress_value N) (seq (S done) (length pages))
          /\ call_inputs new
             = map (fun heb => prompt_of heb target_style extra)
                   (filter sufficient pages)
          /\ exists added,
              outs' = outs ++ added
              /\ map fst added = map page_label (seq i (length pages))
              /\ Forall2 (page_recorded target_style extra new) pages added
      | Raise e =>
          exists finished heb rest before,
            pages = finished ++ heb :: rest /\ sufficient heb = true
            /\ new = before ++ [ServiceCall (lit "gpt-4.1-mini")
                                  (prompt_of heb target_style extra) (Raise e)]
            /\ existsb is_failed_call before = false
            /\ progress_values new
               = map (progress_value N) (seq (S done) (length finished))
            /\ call_inputs new
               = map (fun heb => prompt_of heb target_style extra)
                     (filter sufficient finished)
                 ++ [prompt_of heb target_style extra]
      end.
Proof.
  unfold progress_values, call_inputs.
  induction pages as [|heb rest IH]; intros i outs done tr0 o tr H.
  - cbn in H. injection H as <- <-. exists []. rewrite app_nil_r, Nat.add_0_r.
    repeat split. exists []. rewrite app_nil_r. repeat split. constructor.
  - rewrite translate_pages_cons, translated_of_step in H.
    destruct (sufficient heb) eqn:Es.
    + cbv zeta in H.
      destruct (responses_create tr0 (lit "gpt-4.1-mini")
                  (prompt_of heb target_style extra)) as [output | e] eqn:Er.
      * apply IH in H as (new & -> & Hd & H).
        eexists (_ :: _ :: new). split; [now rewrite <- !app_assoc|].
        split; [exact Hd|].
        destruct o as [[outs' done'] | e].
        -- destruct H as (-> & Hf & Hp & Hc & added & -> & Hl & Hr).
           cbn [length]. split; [lia|]. split; [exact Hf|].
           split; [cbn [flat_map app seq map]; now rewrite Hp|].
           split; [cbn [flat_map app filter]; rewrite Es; cbn [map]; now rewrite Hc|].
           eexists (_ :: added). split; [now rewrite <- app_assoc|].
           split; [cbn [seq map fst]; now rewrite Hl|].
           constructor.
           ++ unfold page_recorded. unfold sufficient in Es.
              destruct (length (strip heb) <? 10); [discriminate|].
              exists output. split; [now left | reflexivity].
           ++ eapply pages_recorded_mono; [|exact Hr].
              intros ev Hev. now do 2 right.
        -- destruct H as (finished & heb' & rest' & before & -> & Hs & -> & Hf & Hp & Hc).
           exists (heb :: finished), heb', rest'. eexists (_ :: _ :: before).
           split; [reflexivity|]. split; [exact Hs|]. split; [reflexivity|].
           split; [exact Hf|].
           split; [cbn [flat_map app seq map length]; now rewrite Hp|].
           cbn [flat_map app filter]. rewrite Es. cbn [map app]. now rewrite Hc.
      * injection H as <- <-. eexists [_]. split; [reflexivity|].
        split; [reflexivity|].
        exists [], heb, rest, []. repeat split. exact Es.
    + apply IH in H as (new & -> & Hd & H).
      eexists (_ :: new). split; [now rewrite <- !app_assoc|].
      split; [exact Hd|].
      destruct o as [[outs' done'] | e].
      * destruct H as (-> & Hf & Hp & Hc & added & -> & Hl & Hr).
        cbn [length]. split; [lia|]. split; [exact Hf|].
        split; [cbn [flat_map app seq map]; now rewrite Hp|].
        split; [cbn [flat_map app filter]; rewrite Es; now rewrite Hc|].
        eexists (_ :: added). split; [now rewrite <- app_assoc|].
        split; [cbn [seq map fst]; now rewrite Hl|].
        constructor.
        -- unfold page_recorded. unfold sufficient in Es.
           destruct (length (strip heb) <? 10); [reflexivity | discriminate].
        -- eapply pages_recorded_mono; [|exact Hr].
           intros ev Hev. now right.
      * destruct H as (finished & heb' & rest' & before & -> & Hs & -> & Hf & Hp & Hc).
        exists (heb :: finished), heb', rest'. eexists (_ :: before).
        split; [reflexivity|]. split; [exact Hs|]. split; [reflexivity|].
        split; [exact Hf|].
        split; [cbn [flat_map app seq map length]; now rewrite Hp|].
        cbn [flat_map app filter]. rewrite Es. now rewrite Hc.
Qed.

Lemma translate_files_cons (target_style extra : str) (N : nat)
  (filename : str) (pages : list str) (rest : list (str * list str))
  (results : list (str * list (str * str))) (done : nat) (tr : trace) :
  translate_files target_style extra N ((filename, pages) :: rest) results done tr
  = match translate_pages target_style extra N pages 1 [] done tr with
    | (Return (page_outputs, done'), tr1) =>
        translate_files target_style extra N rest
          (results ++ [(filename, page_outputs)]) done' tr1
    | (Raise e, tr1) => (Raise e, tr1)
    end.
Proof.
  cbn [translate_files]. unfold bind at 1.
  destruct (translate_pages target_style extra N pages 1 [] done tr)
    as [[[page_outputs done'] | e] tr1]; reflexivity.
Qed.

Lemma files_recorded_mono (target_style extra : str) (t1 t2 : trace)
  (pdf_cache : list (str * list str)) (results : list (str * list (str * str))) :
  (forall ev, In ev t1 -> In ev t2) ->
  Forall2 (file_recorded target_style extra t1) pdf_cache results ->
  Forall2 (file_recorded target_style extra t2) pdf_cache results.
Proof.
  intros Hsub H. induction H as [|c r cs rs (Hn & Hl & Hp) _ IH]; constructor;
    [|assumption].
  repeat split; [exact Hn | exact Hl |].
  now apply (pages_recorded_mono target_style extra t1 t2).
Qed.

Lemma map_progress_seq (N start a b : nat) :
  map (progress_value N) (seq start a)
  ++ map (progress_value N) (seq (start + a) b)
  = map (progress_value N) (seq start (a + b)).
Proof. now rewrite seq_app, map_app. Qed.

Lemma translate_files_run (target_style extra : str) (N : nat) :
  forall pdf_cache results done tr0 o tr,
    translate_files target_style extra N pdf_cache results done tr0 = (o, tr) ->
    exists new,
      tr = tr0 ++ new /\ existsb is_download new = false /\
      match o with
      | Return results' =>
          existsb is_failed_call new = false
          /\ progress_values new
             = map (progress_value N)
                   (seq (S done) (length (concat (map snd pdf_cache))))
          /\ call_inputs new
             = map (fun heb => prompt_of heb target_style extra)
                   (filter sufficient (concat (map snd pdf_cache)))
          /\ exists added,
              results' = results ++ added
              /\ Forall2 (file_recorded target_style extra new) pdf_cache added
      | Raise e =>
          exists finished heb rest before,
            concat (map snd pdf_cache) = finished ++ heb :: rest
            /\ sufficient heb = true
            /\ new = before ++ [ServiceCall (lit "gpt-4.1-mini")
                                  (prompt_of heb target_style extra) (Raise e)]
            /\ existsb is_failed_call before = false
            /\ progress_values new
               = map (progress_value N) (seq (S done) (length finished))
            /\ call_inputs new
               = map (fun heb => prompt_of heb target_style extra)
                     (filter sufficient finished)
                 ++ [prompt_of heb target_style extra]
      end.
Proof.
  induction pdf_cache as [|[filename pages] cache IH];
    intros results done tr0 o tr H.
  - cbn in H. injection H as <- <-. exists []. rewrite app_nil_r.
    repeat split. exists []. rewrite app_nil_r. split; constructor.
  - rewrite translate_files_cons in H.
    destruct (translate_pages target_style extra N pages 1 [] done tr0)
      as [[[page_outputs done'] | e] tr1] eqn:Hp.
    + apply translate_pages_run in Hp
        as (new1 & -> & Hd1 & -> & Hf1 & Hp1 & Hc1 & outs & -> & Hl1 & Hr1).
      apply IH in H as (new2 & -> & Hd2 & H).
      exists (new1 ++ new2). split; [now rewrite app_assoc|].
      split; [now rewrite existsb_app, Hd1, Hd2|].
      cbn [map snd concat].
      destruct o as [results' | e].
      * destruct H as (Hf2 & Hp2 & Hc2 & added & -> & Hr2).
        split; [now rewrite existsb_app, Hf1, Hf2|].
        split.
        { rewrite progress_values_app, Hp1, Hp2, length_app.
          apply (map_progress_seq N (S done)). }
        split.
        { now rewrite call_inputs_app, Hc1, Hc2, filter_app, map_app. }
        exists ((filename, outs) :: added). split; [now rewrite <- app_assoc|].
        constructor.
        -- repeat split; [exact Hl1|]. cbn [snd].
           eapply pages_recorded_mono; [|exact Hr1].
           intros ev Hev. apply in_or_app. now left.
        -- eapply files_recorded_mono; [|exact Hr2].
           intros ev Hev. apply in_or_app. now right.
      * destruct H as (finished & heb & rest & before & Hall & Hs & -> & Hf2 & Hp2 & Hc2).
        exists (pages ++ finished), heb, rest, (new1 ++ before).
        split; [now rewrite Hall, app_assoc|].
        split; [exact Hs|]. split; [now rewrite app_assoc|].
        split; [now rewrite existsb_app, Hf1, Hf2|].
        split.
        { rewrite progress_values_app, Hp1, Hp2, length_app.
          apply (map_progress_seq N (S done)). }
        now rewrite call_inputs_app, Hc1, Hc2, filter_app, map_app, app_assoc.
    + injection H as <- <-.
      apply translate_pages_run in Hp
        as (new1 & -> & Hd1 & finished & heb & rest & before & -> & Hs & -> & H).
      exists (before ++ [ServiceCall (lit "gpt-4.1-mini")
                           (prompt_of heb target_style extra) (Raise e)]).
      split; [reflexivity|]. split; [exact Hd1|].
      exists finished, heb, (rest ++ concat (map snd cache)), before.
      split; [cbn [map snd concat]; now rewrite <- app_assoc|].
      split; [exact Hs|]. split; [reflexivity|]. exact H.
Qed.

(** ** The run *)

Lemma extract_pages_normal (doc : pdf_document exc) :
  forall indices pages pages',
    extract_pages doc indices pages = Return pages' ->
    exists added, pages' = pages ++ added /\ Forall normal_form added.
Proof.
  induction indices as [|i rest IH]; intros pages pages' H; cbn in H.
  - injection H as <-. exists []. now rewrite app_nil_r.
  - destruct (get_text doc i) as [txt | e]; [|discriminate].
    apply IH in H as (added & -> & Hn).
    eexists (_ :: added). split; [now rewrite <- app_assoc|].
    constructor; [apply normalize_normal_form | exact Hn].
Qed.

Lemma extract_pdf_pages_text_normal (pdf_bytes : bytes) (pages : list str) :
  extract_pdf_pages_text pdf_bytes = Return pages -> Forall normal_form pages.
Proof.
  unfold extract_pdf_pages_text.
  destruct (fitz_open pdf_bytes) as [doc | e]; [|discriminate].
  intros H. apply extract_pages_normal in H as (added & -> & Hn). exact Hn.
Qed.

Lemma read_uploads_spec :
  forall uploads pdf_cache total pdf_cache' total',
    read_uploads uploads pdf_cache total = Return (pdf_cache', total') ->
    exists added,
      pdf_cache' = pdf_cache ++ added
      /\ total' = total + length (concat (map snd added))
      /\ map fst added = map name uploads
      /\ Forall (fun cached => Forall normal_form (snd cached)) added.
Proof.
  induction uploads as [|up rest IH]; intros pdf_cache total pdf_cache' total' H;
    cbn in H.
  - injection H as <- <-. exists []. now rewrite app_nil_r, Nat.add_0_r.
  - destruct (extract_pdf_pages_text (getvalue up)) as [pages | e] eqn:E;
      [|discriminate].
    apply IH in H as (added & -> & -> & Hn & Hf).
    exists ((name up, pages) :: added).
    split; [now rewrite <- app_assoc|].
    split; [cbn; rewrite length_app; lia|].
    split; [cbn; now rewrite Hn|].
    constructor; [|exact Hf]. now apply extract_pdf_pages_text_normal in E.
Qed.

Lemma read_uploads_raises :
  forall before up after e pdf_cache total,
    (forall u, In u before ->
               exists pages, extract_pdf_pages_text (getvalue u) = Return pages) ->
    extract_pdf_pages_text (getvalue up) = Raise e ->
    read_uploads (before ++ up :: after) pdf_cache total = Raise e.
Proof.
  induction before as [|u before IH]; intros up after e pdf_cache total Hb Hup;
    cbn [app read_uploads].
  - now rewrite Hup.
  - destruct (Hb u (or_introl eq_refl)) as [pages ->].
    apply IH; [|exact Hup]. intros v Hv. apply Hb. now right.
Qed.

Lemma read_uploads_raises_any :
  forall uploads up e pdf_cache total,
    In up uploads ->
    extract_pdf_pages_text (getvalue up) = Raise e ->
    exists e', read_uploads uploads pdf_cache total = Raise e'.
Proof.
  induction uploads as [|u rest IH]; intros up e pdf_cache total Hin Hup;
    [contradiction|].
  cbn [read_uploads].
  destruct (extract_pdf_pages_text (getvalue u)) as [pages | e0] eqn:E.
  - destruct Hin as [-> | Hin]; [congruence|]. now apply (IH up e).
  - now exists e0.
Qed.

Lemma run_no_upload (target_style extra : str) (tr : trace) :
  run [] target_style extra tr
  = (Raise StopException, tr ++ [Warning (lit "Upload at least one PDF.")]).
Proof. reflexivity. Qed.

Lemma run_extraction_raises (uploads : list (uploaded_file bytes))
  (target_style extra : str) (tr : trace) (e : exc) :
  uploads <> [] ->
  read_uploads uploads [] 0 = Raise e ->
  run uploads target_style extra tr = (Raise e, tr).
Proof.
  intros Hne H. unfold run. destruct uploads as [|up rest]; [contradiction|].
  unfold bind at 1. unfold lift. now rewrite H.
Qed.

Lemma run_translates (uploads : list (uploaded_file bytes))
  (target_style extra : str) (tr : trace)
  (pdf_cache : list (str * list str)) (N : nat) :
  uploads <> [] ->
  read_uploads uploads [] 0 = Return (pdf_cache, N) ->
  run uploads target_style extra tr
  = match translate_files target_style extra N pdf_cache [] 0
            (tr ++ [Progress 0%Q]) with
    | (Return results, tr1) =>
        (Return tt,
         tr1 ++ [Success (lit "Done.");
                 DownloadButton (lit "Download translation.docx")
                   (build_docx results) (lit "translation.docx")
                   (lit "application/vnd.openxmlformats-officedocument.wordprocessingml.document")])
    | (Raise e, tr1) => (Raise e, tr1)
    end.
Proof.
  intros Hne H. unfold run. destruct uploads as [|up rest]; [contradiction|].
  unfold bind at 1. unfold lift. rewrite H.
  unfold bind at 1. unfold emit at 1.
  unfold bind at 1.
  destruct (translate_files target_style extra N pdf_cache [] 0
              (tr ++ [Progress 0%Q])) as [[results | e] tr1]; [|reflexivity].
  unfold bind, emit. now rewrite <- app_assoc.
Qed.

(** The shape of every run that got past extraction. *)
Lemma run_shape (uploads : list (uploaded_file bytes))
  (target_style extra : str) (pdf_cache : list (str * list str)) (N : nat)
  (o : outcome exc unit) (tr : trace) :
  uploads <> [] ->
  read_uploads uploads [] 0 = Return (pdf_cache, N) ->
  run uploads target_style extra [] = (o, tr) ->
  let prompt := fun heb => prompt_of heb target_style extra in
  let all := concat (map snd pdf_cache) in
  exists new,
    match o with
    | Return _ =>
        exists results,
          tr = Progress 0%Q :: new
               ++ [Success (lit "Done.");
                   DownloadButton (lit "Download translation.docx")
                     (build_docx results) (lit "translation.docx")
                     (lit "application/vnd.openxmlformats-officedocument.wordprocessingml.document")]
          /\ existsb is_failed_call new = false
          /\ existsb is_download new = false
          /\ progress_values new = map (progress_value N) (seq 1 (length all))
          /\ call_inputs new = map prompt (filter sufficient all)
          /\ Forall2 (file_recorded target_style extra new) pdf_cache results
    | Raise e =>
        exists finished heb rest before,
          tr = Progress 0%Q :: new
          /\ existsb is_download new = false
          /\ all = finished ++ heb :: rest
          /\ sufficient heb = true
          /\ new = before ++ [ServiceCall (lit "gpt-4.1-mini") (prompt heb) (Raise e)]
          /\ existsb is_failed_call before = false
          /\ progress_values new
             = map (progress_value N) (seq 1 (length finished))
          /\ call_inputs new
             = map prompt (filter sufficient finished) ++ [prompt heb]
    end.
Proof.
  intros Hne Hread Hrun prompt all.
  rewrite (run_translates uploads target_style extra [] pdf_cache N Hne Hread)
    in Hrun.
  destruct (translate_files target_style extra N pdf_cache [] 0
              ([] ++ [Progress 0%Q])) as [o1 tr1] eqn:Ht.
  apply translate_files_run in Ht as (new & -> & Hd & Ht).
  exists new. destruct o1 as [results | e].
  - injection Hrun as <- <-.
    destruct Ht as (Hf & Hp & Hc & added & -> & Hr).
    exists added. now repeat split.
  - injection Hrun as <- <-.
    destruct Ht as (finished & heb & rest & before & Hall & Hs & -> & Hf & Hp & Hc).
    exists finished, heb, rest, before. now repeat split.
Qed.

Lemma call_inputs_frame (v : Q) (new : trace) (msg label name mime : str)
  (data : bytes) :
  call_inputs (Progress v :: new ++ [Success msg; DownloadButton label data name mime])
  = call_inputs new.
Proof.
  unfold call_inputs. cbn [flat_map app]. rewrite flat_map_app.
  cbn [flat_map app]. now rewrite app_nil_r.
Qed.

Lemma progress_values_frame (v : Q) (new : trace) (msg label name mime : str)
  (data : bytes) :
  progress_values
    (Progress v :: new ++ [Success msg; DownloadButton label data name mime])
  = v :: progress_values new.
Proof.
  unfold progress_values. cbn [flat_map app]. rewrite flat_map_app.
  cbn [flat_map app]. now rewrite app_nil_r.
Qed.

(** C1: in a run that got past extraction, the requests sent to the
    translation service are exactly the prompts of the pages whose stripped
    text has at least 10 characters, one per page and in page order, so
    none is sent for a page below the threshold; for such a page the fixed
    message is what is recorded as its translation.  When a request fails
    the same holds up to the failing page.  The fixed message is
    "[No selectable text detected on this page.]", a blank line, and the
    sentence about OCR. *)
Theorem run_placeholder_or_one_call (uploads : list (uploaded_file bytes))
  (target_style extra : str) (pdf_cache : list (str * list str)) (N : nat)
  (o : outcome exc unit) (tr : trace) :
  uploads <> [] ->
  read_uploads uploads [] 0 = Return (pdf_cache, N) ->
  run uploads target_style extra [] = (o, tr) ->
  let prompt := fun heb => prompt_of heb target_style extra in
  let all := concat (map snd pdf_cache) in
  match o with
  | Return _ =>
      call_inputs tr = map prompt (filter sufficient all)
      /\ exists results,
          Forall2 (file_recorded target_style extra tr) pdf_cache results
          /\ In (DownloadButton (lit "Download translation.docx")
                   (build_docx results) (lit "translation.docx")
                   (lit "application/vnd.openxmlformats-officedocument.wordprocessingml.document"))
                tr
  | Raise e =>
      exists finished heb rest,
        all = finished ++ heb :: rest
        /\ sufficient heb = true
        /\ call_inputs tr = map prompt (filter sufficient finished) ++ [prompt heb]
  end
  /\ split [LF; LF] no_text_message
     = [ lit "[No selectable text detected on this page.]";
         lit "If this PDF page is a scanned image, you" ++ [8217%N]
         ++ lit "ll need Hebrew OCR added to the app." ].
Proof.
  intros Hne Hread Hrun prompt all. split; [|reflexivity].
  destruct (run_shape uploads target_style extra pdf_cache N o tr Hne Hread Hrun)
    as [new H].
  destruct o as [u | e].
  - destruct H as (results & -> & _ & _ & _ & Hc & Hr).
    split; [now rewrite call_inputs_frame|].
    exists results. split.
    + eapply files_recorded_mono; [|exact Hr].
      intros ev Hev. right. apply in_or_app. now left.
    + right. apply in_or_app. right. right. now left.
  - destruct H as (finished & heb & rest & before & -> & _ & Hall & Hs & _ & _ & _ & Hc).
    exists finished, heb, rest. repeat split; [exact Hall | exact Hs | exact Hc].
Qed.

(** ** Progress *)




Lemma round_float_nonneg (x : Q) : (0 <= x)%Q -> (0 <= round_float x)%Q.
Proof.
  intros H. rewrite <- round_float_zero. now apply round_float_mono.
Qed.



Lemma progress_value_nonneg (N k : nat) : (0 <= progress_value N k)%Q.
Proof.
  unfold progress_value. apply Q.min_glb; [|discriminate].
  apply round_float_nonneg. unfold Qle. cbn [Qnum Qden]. lia.
Qed.





(** ** The prompt *)

Lemma call_in_inputs (tr : trace) (model input : str)
  (response : outcome exc (option str)) :
  In (ServiceCall model input response) tr -> In input (call_inputs tr).
Proof.
  intros H. unfold call_inputs. apply in_flat_map.
  exists (ServiceCall model input response). split; [exact H | now left].
Qed.

Lemma sufficient_length (heb : str) :
  sufficient heb = true <-> 10 <= length (strip heb).
Proof.
  unfold sufficient. destruct (Nat.ltb_spec (length (strip heb)) 10); cbn.
  - split; [discriminate | lia].
  - split; [trivial | reflexivity].
Qed.

Lemma prompt_template_contains (hebrew_text target_style extra : str) :
  let prompt := prompt_template hebrew_text target_style extra in
  contains hebrew_text prompt = true
  /\ contains target_style prompt = true
  /\ contains (or_else (Some extra) (lit "None")) prompt = true.
Proof.
  cbv zeta. unfold prompt_template. repeat split; apply contains_spec.
  - exists (lit "You are a careful Hebrew-to-English translator." ++ [LF]
            ++ lit "Translate the text accurately. Do not add commentary." ++ [LF]
            ++ lit "Preserve paragraph structure." ++ [LF]
            ++ [LF]
            ++ lit "Target style: " ++ target_style ++ [LF]
            ++ lit "Extra instructions: " ++ or_else (Some extra) (lit "None") ++ [LF]
            ++ [LF]
            ++ lit "HEBREW TEXT:" ++ [LF]), [].
    now rewrite app_nil_r, <- !app_assoc.
  - exists (lit "You are a careful Hebrew-to-English translator." ++ [LF]
            ++ lit "Translate the text accurately. Do not add commentary." ++ [LF]
            ++ lit "Preserve paragraph structure." ++ [LF]
            ++ [LF]
            ++ lit "Target style: "),
           ([LF]
            ++ lit "Extra instructions: " ++ or_else (Some extra) (lit "None") ++ [LF]
            ++ [LF]
            ++ lit "HEBREW TEXT:" ++ [LF]
            ++ hebrew_text).
    now rewrite <- !app_assoc.
  - exists (lit "You are a careful Hebrew-to-English translator." ++ [LF]
            ++ lit "Translate the text accurately. Do not add commentary." ++ [LF]
            ++ lit "Preserve paragraph structure." ++ [LF]
            ++ [LF]
            ++ lit "Target style: " ++ target_style ++ [LF]
            ++ lit "Extra instructions: "),
           ([LF]
            ++ [LF]
            ++ lit "HEBREW TEXT:" ++ [LF]
            ++ hebrew_text).
    now rewrite <- !app_assoc.
Qed.

(** Every request of a run is the prompt of one of its pages with enough
    text. *)
Lemma run_calls_are_prompts (uploads : list (uploaded_file bytes))
  (target_style extra : str) (pdf_cache : list (str * list str)) (N : nat)
  (model input : str) (response : outcome exc (option str)) :
  uploads <> [] ->
  read_uploads uploads [] 0 = Return (pdf_cache, N) ->
  In (ServiceCall model input response)
     (snd (run uploads target_style extra [])) ->
  exists heb,
    In heb (concat (map snd pdf_cache))
    /\ 10 <= length (strip heb)
    /\ input = prompt_template heb target_style extra
    /\ contains heb input = true
    /\ contains target_style input = true
    /\ contains (match extra with [] => lit "None" | _ :: _ => extra end) input
       = true.
Proof.
  intros Hne Hread Hin.
  destruct (run uploads target_style extra []) as [o tr] eqn:Hrun.
  cbn [snd] in Hin.
  assert (Forall normal_form (concat (map snd pdf_cache))) as Hnormal.
  { apply read_uploads_spec in Hread as (added & Hc & _ & _ & Hf).
    cbn in Hc. subst added. apply Forall_concat, Forall_map. exact Hf. }
  assert (exists heb, In heb (concat (map snd pdf_cache))
                      /\ sufficient heb = true
                      /\ input = prompt_of heb target_style extra)
    as (heb & Hheb & Hs & ->).
  { apply call_in_inputs in Hin.
    destruct (run_shape uploads target_style extra pdf_cache N o tr Hne Hread Hrun)
      as [new H].
    destruct o as [u | e].
    - destruct H as (results & -> & _ & _ & _ & Hc & _).
      rewrite call_inputs_frame, Hc in Hin.
      apply in_map_iff in Hin as (heb & <- & Hheb).
      apply filter_In in Hheb as [Hheb Hs]. now exists heb.
    - destruct H as (finished & heb' & rest & before & -> & _ & Hall & Hs & _ & _ & _ & Hc).
      change (call_inputs (Progress 0%Q :: new)) with (call_inputs new) in Hin.
      rewrite Hc in Hin. apply in_app_or in Hin as [Hin | [<- | []]].
      + apply in_map_iff in Hin as (heb & <- & Hheb).
        apply filter_In in Hheb as [Hheb Hs']. exists heb.
        repeat split; [|exact Hs'].
        rewrite Hall. apply in_or_app. now left.
      + exists heb'. repeat split; [|exact Hs].
        rewrite Hall. apply in_or_app. right. now left. }
  apply sufficient_length in Hs.
  assert (stripped heb) as Hstripped.
  { rewrite Forall_forall in Hnormal. now apply Hnormal in Hheb as (_ & _ & _ & _ & H). }
  assert (heb <> []) as Hnonempty.
  { intros ->. cbn in Hs. lia. }
  exists heb. split; [exact Hheb|]. split; [exact Hs|].
  rewrite (prompt_of_stripped heb target_style extra Hstripped Hnonempty).
  split; [reflexivity|].
  destruct (prompt_template_contains heb target_style extra) as (H1 & H2 & H3).
  repeat split; [exact H1 | exact H2 |].
  destruct extra; exact H3.
Qed.

(** C7: for every page of a run whose stripped text has at least 10
    characters, the prompt built for it is the template filled in, ending
    with the page's text: it contains the page's text verbatim, the selected
    style label, and the extra instructions, or the word [None] in their
    place when they are empty; a run that completes has sent it; and no
    request of the run is anything but such a prompt. *)
Theorem run_prompts (uploads : list (uploaded_file bytes))
  (target_style extra : str) (pdf_cache : list (str * list str)) (N : nat)
  (heb : str) :
  uploads <> [] ->
  read_uploads uploads [] 0 = Return (pdf_cache, N) ->
  In heb (concat (map snd pdf_cache)) ->
  10 <= length (strip heb) ->
  let input := prompt_of heb target_style extra in
  input = prompt_template heb target_style extra
  /\ contains heb input = true
  /\ contains target_style input = true
  /\ contains (match extra with [] => lit "None" | _ :: _ => extra end) input
     = true
  /\ (forall u tr,
        run uploads target_style extra [] = (Return u, tr) ->
        In input (call_inputs tr))
  /\ (forall model input' response,
        In (ServiceCall model input' response)
           (snd (run uploads target_style extra [])) ->
        exists heb',
          In heb' (concat (map snd pdf_cache))
          /\ 10 <= length (strip heb')
          /\ input' = prompt_template heb' target_style extra).
Proof.
  intros Hne Hread Hheb Hs input.
  assert (stripped heb) as Hstripped.
  { apply read_uploads_spec in Hread as (added & Hc & _ & _ & Hf).
    cbn in Hc. subst added.
    assert (Forall normal_form (concat (map snd pdf_cache))) as Hnormal
      by (apply Forall_concat, Forall_map; exact Hf).
    rewrite Forall_forall in Hnormal.
    now apply Hnormal in Hheb as (_ & _ & _ & _ & H). }
  assert (heb <> []) as Hnonempty.
  { intros ->. cbn in Hs. lia. }
  unfold input.
  rewrite (prompt_of_stripped heb target_style extra Hstripped Hnonempty).
  destruct (prompt_template_contains heb target_style extra) as (H1 & H2 & H3).
  split; [reflexivity|]. split; [exact H1|]. split; [exact H2|].
  split; [destruct extra; exact H3|]. split.
  - intros u tr Hrun.
    destruct (run_shape uploads target_style extra pdf_cache N (Return u) tr
                Hne Hread Hrun) as (new & results & -> & _ & _ & _ & Hc & _).
    rewrite call_inputs_frame, Hc.
    rewrite <- (prompt_of_stripped heb target_style extra Hstripped Hnonempty).
    apply (in_map (fun h => prompt_of h target_style extra)).
    apply filter_In. split; [exact Hheb|].
    now apply sufficient_length.
  - intros model input' response Hin.
    destruct (run_calls_are_prompts uploads target_style extra pdf_cache N
                model input' response Hne Hread Hin)
      as (heb' & A & B & C & _).
    now exists heb'.
Qed.

(** ** Failures *)

Lemma failed_call_absent (tr pre post : trace) (model input : str) (e : exc) :
  existsb is_failed_call tr = false ->
  tr <> pre ++ ServiceCall model input (Raise e) :: post.
Proof.
  intros H E. subst tr. rewrite existsb_app in H.
  apply orb_false_iff in H as [_ H]. discriminate.
Qed.

Lemma failed_call_last :
  forall (before pre post : trace) (ev : event bytes exc)
         (model input : str) (e : exc),
    existsb is_failed_call before = false ->
    before ++ [ev] = pre ++ ServiceCall model input (Raise e) :: post ->
    post = [] /\ ev = ServiceCall model input (Raise e).
Proof.
  induction before as [|b before IH]; intros pre post ev model input e Hf H.
  - destruct pre as [|p pre]; cbn in H.
    + injection H as -> <-. now split.
    + injection H as _ H. now destruct pre.
  - cbn [existsb] in Hf. apply orb_false_iff in Hf as [Hb Hf].
    destruct pre as [|p pre]; cbn in H.
    + injection H as -> _. discriminate.
    + injection H as _ H. now apply (IH pre post ev model input e).
Qed.

(** C9: when the extraction of any upload raises, the run ends with an
    exception, that of the first upload to fail, before anything is sent or
    shown; when a request to the translation service raises, nothing happens
    after it (no second attempt, no further page) and the run ends with that
    exception; and a run that ends with an exception offers no document. *)
Theorem run_aborts_on_failure (uploads : list (uploaded_file bytes))
  (target_style extra : str) (o : outcome exc unit) (tr : trace) :
  run uploads target_style extra [] = (o, tr) ->
  (forall up e,
      In up uploads ->
      extract_pdf_pages_text (getvalue up) = Raise e ->
      exists e', o = Raise e' /\ tr = [])
  /\ (forall before up after e,
        uploads = before ++ up :: after ->
        (forall u, In u before ->
           exists pages, extract_pdf_pages_text (getvalue u) = Return pages) ->
        extract_pdf_pages_text (getvalue up) = Raise e ->
        o = Raise e /\ tr = [])
  /\ (forall pre model input e post,
        tr = pre ++ ServiceCall model input (Raise e) :: post ->
        post = [] /\ o = Raise e)
  /\ (forall e, o = Raise e -> existsb is_download tr = false).
Proof.
  intros Hrun. split.
  { intros up e Hin Hup.
    destruct (read_uploads_raises_any uploads up e [] 0 Hin Hup) as [e' He'].
    rewrite (run_extraction_raises uploads target_style extra [] e') in Hrun.
    - injection Hrun as <- <-. now exists e'.
    - intros ->. contradiction.
    - exact He'. }
  split.
  { intros before up after e -> Hbefore Hup.
    rewrite (run_extraction_raises (before ++ up :: after) target_style extra [] e)
      in Hrun.
    - injection Hrun as <- <-. now split.
    - now destruct before.
    - now apply read_uploads_raises. }
  destruct uploads as [|up rest] eqn:Hu.
  { rewrite run_no_upload in Hrun. injection Hrun as <- <-. split.
    - intros [|p [|q pre]] model input e post H; discriminate.
    - reflexivity. }
  rewrite <- Hu in Hrun. assert (uploads <> []) as Hne by (now rewrite Hu).
  clear Hu up rest.
  destruct (read_uploads uploads [] 0) as [[pdf_cache N] | e0] eqn:Hread.
  - destruct (run_shape uploads target_style extra pdf_cache N o tr Hne Hread Hrun)
      as [new H].
    destruct o as [u | e0].
    + destruct H as (results & -> & Hf & _). split; [|discriminate].
      intros pre model input e post H. exfalso. revert H.
      apply failed_call_absent. cbn [existsb is_failed_call orb].
      now rewrite existsb_app, Hf.
    + destruct H as (finished & heb & rest & before & -> & Hd & _ & _ & -> & Hf & _).
      split.
      * intros pre model input e post H.
        rewrite app_comm_cons in H.
        apply failed_call_last in H as [-> H]; [|exact Hf].
        split; [reflexivity|]. now injection H as _ _ ->.
      * intros e _. exact Hd.
  - rewrite (run_extraction_raises uploads target_style extra [] e0 Hne Hread)
      in Hrun.
    injection Hrun as <- <-. split; [|reflexivity].
    intros [|p pre] model input e post H; discriminate.
Qed.

(** ** The style selector *)

(** C8 as the specification states it does not hold: its third label,
    "Warm tone (still accurate)", is not one of the options offered. *)
Lemma spec_style_options_differ :
  target_style_options <> spec_style_options
  /\ ~ In (lit "Warm tone (still accurate)") target_style_options.
Proof.
  split.
  - discriminate.
  - cbn. intros [H | [H | [H | [H | []]]]]; discriminate.
Qed.

(** C8, amended: the options offered are exactly four, all different:
    "Clear and straightforward", "More literal / closer to Hebrew",
    "Warm / chassidus-tone (still accurate)" and "Academic / formal"; the
    first is preselected, and whatever is picked, the selected style is one
    of the four. *)
Theorem target_style_options_fixed :
  target_style_options
  = [ lit "Clear and straightforward";
      lit "More literal / closer to Hebrew";
      lit "Warm / chassidus-tone (still accurate)";
      lit "Academic / formal" ]
  /\ length target_style_options = 4
  /\ NoDup target_style_options
  /\ target_style_of None = Some (lit "Clear and straightforward")
  /\ forall picked,
      match target_style_of picked with
      | Some style => In style target_style_options
      | None => exists i, picked = Some i /\ 4 <= i
      end.
Proof.
  split; [reflexivity|]. split; [reflexivity|]. split.
  - repeat constructor; cbn; intuition discriminate.
  - split; [reflexivity|]. intros [i|]; [|now left].
    unfold target_style_of, st_selectbox.
    destruct (nth_error target_style_options i) as [style|] eqn:E.
    + now apply nth_error_In in E.
    + apply nth_error_None in E. now exists i.
Qed.

(** ** More about the normaliser *)

Lemma visible_nil (s : str) : visible s = [] <-> forallb isspace s = true.
Proof.
  induction s as [|c s IH]; [easy|].
  rewrite visible_cons. cbn [forallb]. destruct (isspace c); cbn [andb].
  - exact IH.
  - split; discriminate.
Qed.

Lemma stripped_spaces_nil (s : str) :
  stripped s -> forallb isspace s = true -> s = [].
Proof.
  intros [Hh _] Hs. destruct s as [|c t]; [reflexivity|].
  cbn [forallb] in Hs. apply andb_true_iff in Hs as [Hc _].
  rewrite (Hh c t eq_refl) in Hc. discriminate.
Qed.

(** X1: the texts [normalize_whitespace] leaves as they are are exactly the
    texts without carriage return, without tab, without two spaces in a
    row, without three line feeds in a row and without white space at
    either end. *)
Theorem normalize_whitespace_fixed_points (s : str) :
  normalize_whitespace s = s <-> normal_form s.
Proof.
  split.
  - intros H. rewrite <- H. apply normalize_normal_form.
  - apply normal_form_fixed.
Qed.

(** X2: [normalize_whitespace] gives the empty string exactly for the texts
    made of white space only (the empty text among them). *)
Theorem normalize_whitespace_blank (s : str) :
  normalize_whitespace s = [] <-> forallb isspace s = true.
Proof.
  rewrite <- visible_nil, <- visible_normalize. split.
  - now intros ->.
  - intros H. apply stripped_spaces_nil.
    + apply normalize_normal_form.
    + now apply visible_nil.
Qed.

Lemma replace_from_length (old new : str) :
  length new <= 1 ->
  forall s skip, length (replace_from old new skip s) <= length s.
Proof.
  intros Hnew. induction s as [|c s IH]; intros skip; cbn [replace_from length];
    [lia|].
  destruct skip as [|k].
  - destruct (startswith old (c :: s)).
    + rewrite length_app. specialize (IH (length old - 1)). lia.
    + cbn [length]. specialize (IH 0). lia.
  - specialize (IH k). lia.
Qed.

Lemma re_sub_runs_length (cls : char -> bool) (n : nat) (repl : str) :
  length repl <= n ->
  forall s run,
    length (re_sub_runs_from cls n repl run s) <= length run + length s.
Proof.
  intros Hrepl.
  assert (forall run, length (flush n repl run) <= length run) as Hflush.
  { intros run. unfold flush. destruct (Nat.leb_spec n (length run)).
    - lia.
    - now rewrite length_rev. }
  induction s as [|c s IH]; intros run; cbn [re_sub_runs_from length].
  - specialize (Hflush run). lia.
  - destruct (cls c).
    + specialize (IH (c :: run)). cbn [length] in IH. lia.
    + rewrite length_app. cbn [length].
      specialize (IH []). specialize (Hflush run). cbn [length] in IH. lia.
Qed.

Lemma strip_length (s : str) : length (strip s) <= length s.
Proof.
  destruct (strip_decomp s) as [a [b [H _]]].
  rewrite H at 2. rewrite !length_app. lia.
Qed.

(** X3: [normalize_whitespace] never makes a text longer. *)
Theorem normalize_whitespace_length (text : str) :
  length (normalize_whitespace text) <= length text.
Proof.
  unfold normalize_whitespace, re_sub_runs.
  eapply Nat.le_trans; [apply strip_length|].
  eapply Nat.le_trans; [apply re_sub_runs_length; cbn; lia|].
  cbn [length Nat.add].
  eapply Nat.le_trans; [apply re_sub_runs_length; cbn; lia|].
  cbn [length Nat.add].
  rewrite replace_single, length_map.
  apply (replace_from_length [CR; LF] [LF]). cbn. lia.
Qed.

(** ** More about the extractor *)

Lemma extract_pages_raises (doc : pdf_document exc) (i : nat) (e : exc) :
  (forall j, j < i -> exists t, get_text doc j = Return t) ->
  get_text doc i = Raise e ->
  forall len start pages,
    start <= i < start + len ->
    extract_pages doc (seq start len) pages = Raise e.
Proof.
  intros Hbefore Hi.
  induction len as [|len IH]; intros start pages Hrange; [lia|].
  cbn [seq extract_pages].
  destruct (Nat.eq_dec start i) as [-> | Hneq].
  - now rewrite Hi.
  - destruct (Hbefore start) as [t ->]; [lia|]. apply IH. lia.
Qed.

(** X4: when the PDF cannot be opened, or when one of its pages raises
    while the pages before it gave their text, the extractor raises that
    exception: it hands back no partial list. *)
Theorem extract_pdf_pages_text_raises (pdf_bytes : bytes) (e : exc) :
  (fitz_open pdf_bytes = Raise e
   \/ exists doc i,
       fitz_open pdf_bytes = Return doc
       /\ i < page_count doc
       /\ (forall j, j < i -> exists t, get_text doc j = Return t)
       /\ get_text doc i = Raise e) ->
  extract_pdf_pages_text pdf_bytes = Raise e.
Proof.
  unfold extract_pdf_pages_text.
  intros [-> | (doc & i & -> & Hi & Hbefore & Hraise)]; [reflexivity|].
  apply (extract_pages_raises doc i e Hbefore Hraise). lia.
Qed.

(** X5: every text the extractor returns is in the normaliser's normal
    form: stripping it or normalising it again changes nothing, so the
    length the run compares with its threshold is the length of the page
    text itself. *)
Theorem extract_pdf_pages_text_normalised (pdf_bytes : bytes) (pages : list str) :
  extract_pdf_pages_text pdf_bytes = Return pages ->
  Forall
    (fun heb =>
       normal_form heb
       /\ strip heb = heb
       /\ normalize_whitespace heb = heb
       /\ sufficient heb = (10 <=? length heb))
    pages.
Proof.
  intros H. apply extract_pdf_pages_text_normal in H.
  apply Forall_forall. intros heb Hheb.
  rewrite Forall_forall in H. specialize (H heb Hheb).
  assert (strip heb = heb) as Hs
    by (destruct H as (_ & _ & _ & _ & H); now apply stripped_strip).
  split; [exact H|]. split; [exact Hs|]. split; [now apply normal_form_fixed|].
  unfold sufficient. rewrite Hs.
  destruct (Nat.ltb_spec (length heb) 10), (Nat.leb_spec 10 (length heb));
    (reflexivity || lia).
Qed.

(** ** More about the assembler *)

Lemma build_docx_document_body (items : list (str * list (str * str))) :
  body (build_docx_document items) = spec_blocks items.
Proof. unfold build_docx_document. now rewrite body_files. Qed.

Lemma split_head_prefix (sep : str) :
  forall s, exists h t rest, split_from sep 0 s = h :: t /\ s = h ++ rest.
Proof.
  induction s as [|c s (h & t & rest & Hs & Hr)]; cbn [split_from].
  - now exists [], [], [].
  - destruct (startswith sep (c :: s)).
    + now exists [], (split_from sep (length sep - 1) s), (c :: s).
    + rewrite Hs. exists (c :: h), t, rest. split; [reflexivity|].
      cbn. now rewrite <- Hr.
Qed.

Lemma split_piece_infix (sep : str) :
  forall s skip x, In x (split_from sep skip s) -> exists a b, s = a ++ x ++ b.
Proof.
  induction s as [|c s IH]; intros skip x Hx; cbn [split_from] in Hx.
  - destruct Hx as [<- | []]. now exists [], [].
  - destruct skip as [|k].
    + destruct (startswith sep (c :: s)).
      * destruct Hx as [<- | Hx]; [now exists [], (c :: s)|].
        apply IH in Hx as (a & b & ->). now exists (c :: a), b.
      * destruct (split_head_prefix sep s) as (h & t & rest & Hs & Hr).
        rewrite Hs in Hx. destruct Hx as [<- | Hx].
        -- exists [], rest. cbn. now rewrite <- Hr.
        -- destruct (IH 0 x) as (a & b & ->); [rewrite Hs; now right|].
           now exists (c :: a), b.
    + apply IH in Hx as (a & b & ->). now exists (c :: a), b.
Qed.

Lemma split_piece_no_blank_line :
  forall s skip x,
    In x (split_from [LF; LF] skip s) -> contains [LF; LF] x = false.
Proof.
  induction s as [|c s IH]; intros skip x Hx; cbn [split_from] in Hx.
  - now destruct Hx as [<- | []].
  - destruct skip as [|k]; [|now apply (IH k)].
    destruct (startswith [LF; LF] (c :: s)) eqn:E.
    + destruct Hx as [<- | Hx]; [reflexivity | now apply (IH 1 x)].
    + destruct (split_head_prefix [LF; LF] s) as (h & t & rest & Hs & Hr).
      rewrite Hs in Hx. destruct Hx as [<- | Hx].
      * rewrite contains_pair_cons.
        rewrite (IH 0 h) by (rewrite Hs; now left).
        rewrite orb_false_r. destruct (LF =? c)%N eqn:Ec; [|reflexivity].
        destruct (startswith [LF] h) eqn:Eh; [|reflexivity].
        apply startswith_spec in Eh as [h' ->]. rewrite Hr in E.
        apply N.eqb_eq in Ec. subst c. cbn in E. discriminate.
      * apply (IH 0 x). rewrite Hs. now right.
Qed.

Lemma trimmed_nonempty_in (l : list str) (text : str) :
  In text (trimmed_nonempty l) <->
  text <> [] /\ exists x, In x l /\ text = strip x.
Proof.
  unfold trimmed_nonempty. rewrite filter_In, in_map_iff. split.
  - intros [(x & <- & Hx) Hne]. split; [|now exists x].
    intros E. now rewrite E in Hne.
  - intros (Hne & x & Hx & ->). split; [now exists x|].
    now destruct (strip x).
Qed.

Lemma spec_blocks_paragraph (items : list (str * list (str * str))) (text : str) :
  In (Paragraph text) (spec_blocks items) ->
  exists item page,
    In item items /\ In page (snd item)
    /\ In text (trimmed_nonempty (split [LF; LF] (snd page))).
Proof.
  unfold spec_blocks. intros H.
  apply in_flat_map in H as (item & Hitem & H).
  unfold spec_file_blocks in H. destruct H as [H | H]; [discriminate|].
  apply in_app_or in H as [H | [H | []]]; [|discriminate].
  apply in_flat_map in H as (page & Hpage & H).
  unfold spec_page_blocks in H. destruct H as [H | H]; [discriminate|].
  apply in_map_iff in H as (p & Hp & H). injection Hp as ->.
  exists item, page. rewrite split_paragraphs. auto.
Qed.

Lemma fold_files_font (items : list (str * list (str * str))) :
  forall doc,
    normal_font (fold_left build_docx_file items doc) = normal_font doc.
Proof.
  assert (forall l doc,
            normal_font (fold_left build_docx_paragraph l doc) = normal_font doc)
    as Hpara.
  { induction l as [|x l IH]; intros doc; cbn [fold_left]; [reflexivity|].
    rewrite IH. unfold build_docx_paragraph. now destruct (strip x). }
  assert (forall l doc,
            normal_font (fold_left build_docx_page l doc) = normal_font doc)
    as Hpage.
  { induction l as [|[page_label translated] l IH]; intros doc; cbn [fold_left];
      [reflexivity|].
    rewrite IH. unfold build_docx_page. now rewrite Hpara. }
  induction items as [|[file_label pages] l IH]; intros doc; cbn [fold_left];
    [reflexivity|].
  rewrite IH. unfold build_docx_file. cbn. now rewrite Hpage.
Qed.

(** X6: whatever it is given, [build_docx] sets the document's default font
    to Calibri, 11 points; adding headings, paragraphs and page breaks
    never changes it. *)
Theorem build_docx_font (items : list (str * list (str * str))) :
  normal_font (build_docx_document items)
  = {| font_name := Some (lit "Calibri"); font_size_pt := Some 11 |}.
Proof. unfold build_docx_document. now rewrite fold_files_font. Qed.

(** X7: every paragraph of the assembled document is a non-empty piece of
    one page's translated text, without white space at either end and
    without a blank line inside. *)
Theorem build_docx_paragraphs_trimmed
  (items : list (str * list (str * str))) (text : str) :
  In (Paragraph text) (body (build_docx_document items)) ->
  text <> []
  /\ stripped text
  /\ contains [LF; LF] text = false
  /\ exists item page,
      In item items /\ In page (snd item)
      /\ contains text (snd page) = true.
Proof.
  rewrite build_docx_document_body. intros H.
  apply spec_blocks_paragraph in H as (item & page & Hitem & Hpage & H).
  apply trimmed_nonempty_in in H as (Hne & x & Hx & ->).
  split; [exact Hne|]. split; [apply strip_stripped|]. split.
  - apply strip_contains_false.
    now apply (split_piece_no_blank_line (snd page) 0).
  - exists item, page. split; [exact Hitem|]. split; [exact Hpage|].
    apply split_piece_infix in Hx as (a & b & ->).
    destruct (strip_decomp x) as (a' & b' & Hd & _).
    apply contains_spec. exists (a ++ a'), (b' ++ b).
    rewrite Hd at 1. now rewrite <- !app_assoc.
Qed.

(** X8: the files are assembled one after the other, each on its own: the
    document of two lists of files put together is the document of the
    first followed by the document of the second, and no file gives no
    block at all. *)
Theorem build_docx_app (items1 items2 : list (str * list (str * str))) :
  body (build_docx_document (items1 ++ items2))
  = body (build_docx_document items1) ++ body (build_docx_document items2)
  /\ body (build_docx_document []) = [].
Proof.
  rewrite !build_docx_document_body. unfold spec_blocks.
  split; [apply flat_map_app | reflexivity].
Qed.

Lemma strip_spaces (s : str) : forallb isspace s = true -> strip s = [].
Proof.
  intros H. unfold strip, lstrip.
  rewrite <- (app_nil_r s), dropwhile_all by exact H. reflexivity.
Qed.




(** X18: what [build_docx] returns is the saved form of one document: its
    default font is Calibri, 11 points, and its body is, file by file, a
    level-1 heading, then page by page a level-2 heading and one paragraph
    per non-empty trimmed segment of the page's text cut at its runs of two
    or more line feeds, then a page break. *)
Theorem build_docx_returns (items : list (str * list (str * str))) :
  build_docx items
  = docx_save
      {| normal_font :=
           {| font_name := Some (lit "Calibri"); font_size_pt := Some 11 |};
         body :=
           flat_map
             (fun item =>
                Heading (fst item) 1
                :: flat_map
                     (fun page =>
                        Heading (fst page) 2
                        :: map Paragraph
                             (filter nonempty
                                (map strip (segments_from false (snd page)))))
                     (snd item)
                ++ [PageBreak])
             items |}.
Proof.
  unfold build_docx. f_equal.
  pose proof (build_docx_document_body items) as Hbody.
  assert (normal_font (build_docx_document items)
          = {| font_name := Some (lit "Calibri"); font_size_pt := Some 11 |})
    as Hfont
    by (unfold build_docx_document; now rewrite fold_files_font).
  destruct (build_docx_document items) as [f b].
  cbn [normal_font body] in Hbody, Hfont. now subst f b.
Qed.

(** ** More about the translator *)

(** X10: whatever the service answers, the text [translate_text] returns has
    no white space at either end; when the answer is missing, empty or only
    white space, it is the empty string. *)
Theorem translate_text_result (hebrew_text target_style extra : str)
  (tr tr' : trace) (translated : str) :
  translate_text hebrew_text target_style extra tr = (Return translated, tr') ->
  stripped translated
  /\ strip translated = translated
  /\ (forall answer,
        strip hebrew_text <> [] ->
        responses_create tr (lit "gpt-4.1-mini")
          (prompt_of hebrew_text target_style extra) = Return answer ->
        forallb isspace (or_else answer []) = true ->
        translated = []).
Proof.
  intros H.
  destruct (strip hebrew_text) as [|c s] eqn:E.
  - rewrite translate_text_blank in H by exact E. injection H as <- _.
    split; [apply (strip_stripped [])|]. split; [reflexivity|].
    intros answer Hne. now contradiction Hne.
  - rewrite translate_text_call in H by (rewrite E; discriminate).
    cbv zeta in H.
    destruct (responses_create tr (lit "gpt-4.1-mini")
                (prompt_of hebrew_text target_style extra)) as [output | e];
      [|discriminate].
    injection H as <- _. split; [apply strip_stripped|].
    split; [apply strip_idem|].
    intros answer _ Ha Hblank. injection Ha as <-. now apply strip_spaces.
Qed.

Lemma rstrip_app_text (a h : str) :
  rstrip h <> [] -> rstrip (a ++ h) = a ++ rstrip h.
Proof.
  intros H. unfold rstrip in *. rewrite rev_app_distr, dropwhile_app.
  destruct (forallb isspace (rev h)) eqn:E.
  - exfalso. apply H.
    rewrite <- (app_nil_r (rev h)), dropwhile_all by exact E. reflexivity.
  - now rewrite rev_app_distr, rev_involutive.
Qed.

Lemma strip_rstrip_nonempty (h : str) : strip h <> [] -> rstrip h <> [].
Proof.
  intros H E. apply H. apply strip_spaces.
  destruct (rstrip_decomp h) as (b & Hb & Hs). rewrite E in Hb. now subst h.
Qed.

Lemma prompt_template_app (hebrew_text target_style extra : str) :
  prompt_template hebrew_text target_style extra
  = prompt_template [] target_style extra ++ hebrew_text.
Proof. unfold prompt_template. now rewrite <- !app_assoc. Qed.

(** X11: for a text that is not blank the prompt is the template followed by
    the text without the white space at its end: the final [strip] of the
    prompt takes nothing else away, so white space at the start of the text
    is sent and white space at its end is not. *)
Theorem prompt_of_rstrip (hebrew_text target_style extra : str) :
  strip hebrew_text <> [] ->
  prompt_of hebrew_text target_style extra
  = prompt_template (rstrip hebrew_text) target_style extra.
Proof.
  intros H. rewrite prompt_template_lf, strip_app_space by reflexivity.
  rewrite (prompt_template_app (rstrip hebrew_text)).
  rewrite prompt_template_app.
  assert (exists rest, prompt_template [] target_style extra = 89%N :: rest)
    as [rest ->] by (eexists; reflexivity).
  unfold strip, lstrip. cbn [app dropwhile].
  change (isspace 89%N) with false. cbv iota.
  change (89%N :: rest ++ hebrew_text) with ((89%N :: rest) ++ hebrew_text).
  now apply rstrip_app_text, strip_rstrip_nonempty.
Qed.

(** ** More about the run *)



Lemma read_uploads_files :
  forall uploads pdf_cache total pdf_cache' total',
    read_uploads uploads pdf_cache total = Return (pdf_cache', total') ->
    exists added,
      pdf_cache' = pdf_cache ++ added
      /\ Forall2
           (fun up cached =>
              fst cached = name up
              /\ extract_pdf_pages_text (getvalue up) = Return (snd cached))
           uploads added.
Proof.
  induction uploads as [|up rest IH]; intros pdf_cache total pdf_cache' total' H;
    cbn in H.
  - injection H as <- _. exists []. now rewrite app_nil_r.
  - destruct (extract_pdf_pages_text (getvalue up)) as [pages | e] eqn:E;
      [|discriminate].
    apply IH in H as (added & -> & Hf).
    exists ((name up, pages) :: added). split; [now rewrite <- app_assoc|].
    constructor; [now split | exact Hf].
Qed.


Lemma Forall2_compose {A B C : Type} (P : A -> B -> Prop) (Q : B -> C -> Prop) :
  forall l1 l2 l3,
    Forall2 P l1 l2 -> Forall2 Q l2 l3 ->
    Forall2 (fun a c => exists b, P a b /\ Q b c) l1 l3.
Proof.
  intros l1 l2 l3 H. revert l3.
  induction H as [|a b l1 l2 Hab _ IH]; intros l3 H23; inversion H23; subst.
  - constructor.
  - constructor; [now exists b | now apply IH].
Qed.


(** X13: the document a completed run offers is built from one entry per
    upload, in upload order and under the upload's name (repeated names
    included), and each entry has one page entry per page of that PDF,
    labelled Page 1, Page 2, ... from 1 again in every file. *)
Theorem run_document_follows_uploads (uploads : list (uploaded_file bytes))
  (target_style extra : str) (u : unit) (tr : trace) :
  run uploads target_style extra [] = (Return u, tr) ->
  exists results,
    In (DownloadButton (lit "Download translation.docx")
          (build_docx results) (lit "translation.docx")
          (lit "application/vnd.openxmlformats-officedocument.wordprocessingml.document"))
       tr
    /\ Forall2
         (fun up result =>
            fst result = name up
            /\ exists pages,
                extract_pdf_pages_text (getvalue up) = Return pages
                /\ map fst (snd result)
                   = map page_label (seq 1 (length pages)))
         uploads results.
Proof.
  intros Hrun.
  assert (uploads <> []) as Hne.
  { intros ->. rewrite run_no_upload in Hrun. discriminate. }
  destruct (read_uploads uploads [] 0) as [[pdf_cache N] | e] eqn:Hread.
  - destruct (run_shape uploads target_style extra pdf_cache N (Return u) tr
                Hne Hread Hrun)
      as (new & results & -> & _ & _ & _ & _ & Hrec).
    exists results. split.
    + right. apply in_or_app. right. right. now left.
    + apply read_uploads_files in Hread as (added & Hc & Hup).
      cbn in Hc. subst added.
      eapply Forall2_impl; [|exact (Forall2_compose _ _ _ _ _ Hup Hrec)].
      intros up result (cached & [Hname Hex] & Hfst & Hlabels & _).
      split; [congruence|]. now exists (snd cached).
  - rewrite (run_extraction_raises uploads target_style extra [] e Hne Hread)
      in Hrun. discriminate.
Qed.

(** X14: every value the run gives to the progress bar lies between 0 and
    1, whether the run completes or not. *)
Theorem run_progress_in_range (uploads : list (uploaded_file bytes))
  (target_style extra : str) :
  Forall (fun v => (0 <= v)%Q /\ (v <= 1)%Q)
         (progress_values (snd (run uploads target_style extra []))).
Proof.
  assert (forall N l,
            Forall (fun v => (0 <= v)%Q /\ (v <= 1)%Q)
                   (0%Q :: map (progress_value N) l)) as Hvalues.
  { intros N l. constructor; [split; discriminate|].
    apply Forall_forall. intros v Hv.
    apply in_map_iff in Hv as (k & <- & _). split.
    - apply progress_value_nonneg.
    - unfold progress_value. apply Q.le_min_r. }
  destruct uploads as [|up rest] eqn:Hu; [constructor|].
  rewrite <- Hu. assert (uploads <> []) as Hne by (now rewrite Hu).
  clear Hu up rest.
  destruct (run uploads target_style extra []) as [o tr] eqn:Hrun. cbn [snd].
  destruct (read_uploads uploads [] 0) as [[pdf_cache N] | e] eqn:Hread.
  - destruct (run_shape uploads target_style extra pdf_cache N o tr
                Hne Hread Hrun) as [new H].
    destruct o as [u | e].
    + destruct H as (results & -> & _ & _ & Hp & _).
      rewrite progress_values_frame, Hp. apply Hvalues.
    + destruct H as (finished & heb & rest & before & -> & _ & _ & _ & _ & _ & Hp & _).
      change (progress_values (Progress 0%Q :: new))
        with (0%Q :: progress_values new).
      rewrite Hp. apply Hvalues.
  - rewrite (run_extraction_raises uploads target_style extra [] e Hne Hread)
      in Hrun.
    injection Hrun as _ <-. constructor.
Qed.

(** ** The credential *)

Lemma str_eqb_eq (a b : str) : str_eqb a b = true <-> a = b.
Proof.
  revert b. induction a as [|x a IH]; intros [|y b]; cbn [str_eqb];
    try (split; (reflexivity || discriminate)).
  rewrite andb_true_iff, N.eqb_eq, IH. split.
  - now intros [-> ->].
  - intros H. now injection H.
Qed.

Lemma dict_get_absent (d : list (str * str)) (key default : str) :
  (forall v, ~ In (key, v) d) -> dict_get d key default = default.
Proof.
  induction d as [|[k v] d IH]; intros H; cbn [dict_get]; [reflexivity|].
  destruct (str_eqb k key) eqn:E.
  - apply str_eqb_eq in E. subst k. exfalso. apply (H v). now left.
  - apply IH. intros w Hw. apply (H w). now right.
Qed.

(** X15: when the secrets hold no [OPENAI_API_KEY], or hold one that is
    empty or only white space, the script shows its header and the error
    message and stops: no widget is drawn and nothing of the run happens,
    whatever was uploaded and whether or not the button was pressed. *)
Theorem script_needs_credential (secrets : list (str * str))
  (target_style extra_instructions : str)
  (uploads : list (uploaded_file bytes)) (run_btn : bool) :
  ((forall v, ~ In (lit "OPENAI_API_KEY", v) secrets)
   \/ forallb isspace (dict_get secrets (lit "OPENAI_API_KEY") []) = true) ->
  exists msg,
    script secrets target_style extra_instructions uploads run_btn
    = (Raise StopException, page_header ++ [Error msg])
    /\ contains (lit "Missing OPENAI_API_KEY") msg = true.
Proof.
  intros H.
  assert (strip (dict_get secrets (lit "OPENAI_API_KEY") []) = []) as Hkey.
  { destruct H as [H | H].
    - now rewrite dict_get_absent.
    - now apply strip_spaces. }
  unfold script. rewrite Hkey. eexists. split; [reflexivity|].
  vm_compute. reflexivity.
Qed.

Lemma translate_pages_models (target_style extra : str) (N : nat)
  (P := fun ev : event bytes exc =>
          match ev with
          | ServiceCall model _ _ => model = lit "gpt-4.1-mini"
          | _ => True
          end) :
  forall pages i outs done tr0 o tr,
    translate_pages target_style extra N pages i outs done tr0 = (o, tr) ->
    Forall P tr0 -> Forall P tr.
Proof.
  induction pages as [|heb rest IH]; intros i outs done tr0 o tr H H0.
  - cbn in H. now injection H as _ <-.
  - rewrite translate_pages_cons, translated_of_step in H.
    destruct (sufficient heb).
    + cbv zeta in H.
      destruct (responses_create tr0 (lit "gpt-4.1-mini")
                  (prompt_of heb target_style extra)) as [output | e].
      * apply IH in H; [exact H|].
        rewrite !Forall_app. repeat split; try exact H0; now repeat constructor.
      * injection H as _ <-.
        rewrite Forall_app. split; [exact H0 | now repeat constructor].
    + apply IH in H; [exact H|].
      rewrite Forall_app. split; [exact H0 | now repeat constructor].
Qed.

Lemma translate_files_models (target_style extra : str) (N : nat)
  (P := fun ev : event bytes exc =>
          match ev with
          | ServiceCall model _ _ => model = lit "gpt-4.1-mini"
          | _ => True
          end) :
  forall pdf_cache results done tr0 o tr,
    translate_files target_style extra N pdf_cache results done tr0 = (o, tr) ->
    Forall P tr0 -> Forall P tr.
Proof.
  induction pdf_cache as [|[filename pages] rest IH];
    intros results done tr0 o tr H H0.
  - cbn in H. now injection H as _ <-.
  - rewrite translate_files_cons in H.
    destruct (translate_pages target_style extra N pages 1 [] done tr0)
      as [[[page_outputs done'] | e] tr1] eqn:Hp;
      apply translate_pages_models in Hp; try exact H0.
    + now apply IH in H.
    + now injection H as _ <-.
Qed.

(** X16: every request of a run, whatever the page, the style and the
    instructions, is addressed to the one model [gpt-4.1-mini]. *)
Theorem run_model (uploads : list (uploaded_file bytes))
  (target_style extra model input : str)
  (response : outcome exc (option str)) :
  In (ServiceCall model input response)
     (snd (run uploads target_style extra [])) ->
  model = lit "gpt-4.1-mini".
Proof.
  intros Hin.
  destruct uploads as [|up rest] eqn:Hu.
  { destruct Hin as [H | []]. discriminate. }
  rewrite <- Hu in Hin. assert (uploads <> []) as Hne by (now rewrite Hu).
  clear Hu up rest.
  destruct (read_uploads uploads [] 0) as [[pdf_cache N] | e] eqn:Hread.
  - rewrite (run_translates uploads target_style extra [] pdf_cache N Hne Hread)
      in Hin.
    destruct (translate_files target_style extra N pdf_cache [] 0
                ([] ++ [Progress 0%Q])) as [o tr1] eqn:Ht.
    apply translate_files_models in Ht; [|now repeat constructor].
    assert (In (ServiceCall model input response) tr1) as Hin1.
    { destruct o as [results | e]; cbn [snd] in Hin; [|exact Hin].
      apply in_app_or in Hin as [Hin | [Hin | [Hin | []]]];
        [exact Hin | discriminate | discriminate]. }
    rewrite Forall_forall in Ht. exact (Ht _ Hin1).
  - rewrite (run_extraction_raises uploads target_style extra [] e Hne Hread)
      in Hin. destruct Hin.
Qed.

Lemma labelled_constant {A B : Type} (m : B) :
  forall (l : list (A * B)) (labels : list A),
    map fst l = labels ->
    (forall x, In x l -> snd x = m) ->
    l = map (fun a => (a, m)) labels.
Proof.
  induction l as [|[a b] l IH]; intros labels Hl Hm; subst labels;
    [reflexivity|].
  cbn [map fst]. f_equal.
  - f_equal. apply (Hm (a, b)). now left.
  - apply IH; [reflexivity|]. intros x Hx. apply Hm. now right.
Qed.

Lemma pages_recorded_short (target_style extra : str) (tr : trace)
  (pages : list str) (outs : list (str * str)) :
  Forall (fun heb => sufficient heb = false) pages ->
  Forall2 (page_recorded target_style extra tr) pages outs ->
  forall out, In out outs -> snd out = no_text_message.
Proof.
  intros Hshort H. induction H as [|heb out pages outs Hrec _ IH];
    intros x Hx; [destruct Hx|].
  inversion Hshort as [|? ? Hheb Hrest]; subst.
  destruct Hx as [<- | Hx]; [|now apply IH].
  unfold page_recorded in Hrec. unfold sufficient in Hheb.
  destruct (length (strip heb) <? 10); [exact Hrec | discriminate].
Qed.

(** X17: a run over PDFs without enough text on any page (scanned pages)
    sends no request at all and so completes whatever the state of the
    service; the document it offers holds, for every page of every file,
    the page's label with the fixed message. *)
Theorem run_scanned (uploads : list (uploaded_file bytes))
  (target_style extra : str) (pdf_cache : list (str * list str)) (N : nat) :
  uploads <> [] ->
  read_uploads uploads [] 0 = Return (pdf_cache, N) ->
  Forall (fun heb => sufficient heb = false) (concat (map snd pdf_cache)) ->
  let results :=
    map (fun cached =>
           (fst cached,
            map (fun i => (page_label i, no_text_message))
                (seq 1 (length (snd cached)))))
        pdf_cache in
  exists tr,
    run uploads target_style extra [] = (Return tt, tr)
    /\ call_inputs tr = []
    /\ In (DownloadButton (lit "Download translation.docx")
             (build_docx results) (lit "translation.docx")
             (lit "application/vnd.openxmlformats-officedocument.wordprocessingml.document"))
          tr.
Proof.
  intros Hne Hread Hshort results.
  destruct (run uploads target_style extra []) as [o tr] eqn:Hrun.
  destruct (run_shape uploads target_style extra pdf_cache N o tr Hne Hread Hrun)
    as [new H].
  destruct o as [[] | e].
  - destruct H as (res & -> & _ & _ & _ & Hc & Hrec).
    assert (res = results) as ->.
    { unfold results. clear - Hrec Hshort.
      induction Hrec as [|cached result cache res (Hn & Hl & Hp) _ IH];
        [reflexivity|].
      cbn [map snd concat] in Hshort. apply Forall_app in Hshort as [Hs1 Hs2].
      cbn [map]. f_equal; [|now apply IH].
      destruct result as [filename outs]. cbn [fst snd] in *. subst filename.
      f_equal.
      rewrite (labelled_constant no_text_message outs _ Hl
                 (pages_recorded_short _ _ _ _ _ Hs1 Hp)).
      now rewrite map_map. }
    eexists. split; [reflexivity|]. split.
    + rewrite call_inputs_frame, Hc.
      replace (filter sufficient (concat (map snd pdf_cache))) with (@nil str);
        [reflexivity|].
      clear - Hshort. induction Hshort as [|heb l Hheb _ IH]; [reflexivity|].
      cbn [filter]. now rewrite Hheb.
    + right. apply in_or_app. right. right. now left.
  - destruct H as (finished & heb & rest & before & _ & _ & Hall & Hs & _).
    rewrite Hall in Hshort. apply Forall_app in Hshort as [_ Hshort].
    inversion Hshort as [|? ? Hheb _]. congruence.
Qed.

End App.

(** ** The theorems at work on a small run *)

Example normalize_whitespace_example :
  normalize_whitespace
    (lit "  a" ++ [TAB; SP; TAB] ++ lit "b" ++ [CR; LF; CR; CR; LF; LF]
     ++ lit "c  d" ++ [CR; TAB])
  = lit "a b" ++ [LF; LF] ++ lit "c d".
Proof. vm_compute. reflexivity. Qed.

(** The same text, stage by stage as the specification words it. *)
Example spec_line_endings_example :
  spec_line_endings
    (lit "  a" ++ [TAB; SP; TAB] ++ lit "b" ++ [CR; LF; CR; CR; LF; LF]
     ++ lit "c  d" ++ [CR; TAB])
  = lit "  a" ++ [TAB; SP; TAB] ++ lit "b" ++ [LF; LF; LF; LF]
    ++ lit "c  d" ++ [LF; TAB].
Proof. vm_compute. reflexivity. Qed.

Example runs_example :
  runs is_hspace (lit "  a" ++ [TAB; SP; TAB] ++ lit "b" ++ [LF])
  = [ (true, [SP; SP]); (false, lit "a"); (true, [TAB; SP; TAB]);
      (false, lit "b" ++ [LF]) ].
Proof. vm_compute. reflexivity. Qed.

Example spec_collapsed_example :
  spec_collapsed
    (lit "  a" ++ [TAB; SP; TAB] ++ lit "b" ++ [CR; LF; CR; CR; LF; LF]
     ++ lit "c  d" ++ [CR; TAB])
  = lit " a b" ++ [LF; LF] ++ lit "c d" ++ [LF; SP].
Proof. vm_compute. reflexivity. Qed.

Example split_example :
  split [LF; LF] (lit "a" ++ [LF; LF; LF] ++ lit "b" ++ [LF; LF])
  = [lit "a"; LF :: lit "b"; []].
Proof. vm_compute. reflexivity. Qed.

Example replace_example :
  replace [CR; LF] [LF] ([CR; CR; LF; LF; CR] ++ lit "x")
  = [CR; LF; LF; CR] ++ lit "x".
Proof. vm_compute. reflexivity. Qed.

Example page_label_example : page_label 12 = lit "Page 12".
Proof. vm_compute. reflexivity. Qed.

(** The round trip of the specification: two files, of two pages and of one
    page, with the translations A, B and C. *)
Example build_docx_round_trip :
  body (build_docx_document
          [ (lit "F1", [(lit "Page 1", lit "A"); (lit "Page 2", lit "B")]);
            (lit "F2", [(lit "Page 1", lit "C")]) ])
  = [ Heading (lit "F1") 1;
      Heading (lit "Page 1") 2; Paragraph (lit "A");
      Heading (lit "Page 2") 2; Paragraph (lit "B");
      PageBreak;
      Heading (lit "F2") 1;
      Heading (lit "Page 1") 2; Paragraph (lit "C");
      PageBreak ].
Proof. vm_compute. reflexivity. Qed.

Example build_docx_two_paragraphs :
  body (build_docx_document
          [ (lit "F", [(lit "Page 1",
                        lit "Para one" ++ [LF; LF; LF; SP; LF; LF] ++ lit "Para two")]) ])
  = [ Heading (lit "F") 1; Heading (lit "Page 1") 2;
      Paragraph (lit "Para one"); Paragraph (lit "Para two"); PageBreak ].
Proof. vm_compute. reflexivity. Qed.

(** Called directly on a text with white space at its end, [translate_text]
    sends the text without it. *)
Example prompt_of_unstripped :
  prompt_of (Demo.greeting ++ [SP; LF]) Demo.style []
  = prompt_template Demo.greeting Demo.style [].
Proof. vm_compute. reflexivity. Qed.

Lemma demo_round_float_mono (x y : Q) :
  (x <= y)%Q -> (Demo.round_float x <= Demo.round_float y)%Q.
Proof.
  intros H. unfold Demo.round_float, Qle. cbn [Qnum Qden].
  apply Z.mul_le_mono_nonneg_r; [lia|].
  apply Qfloor_resp_le, Qmult_le_compat_r; [exact H | discriminate].
Qed.

Lemma demo_round_float_zero : (Demo.round_float 0 == 0)%Q.
Proof. reflexivity. Qed.


Lemma extract_pdf_pages_text_pages_witness :
  exists pages,
    extract_pdf_pages_text Demo.fitz_open Demo.first_pdf = Return pages
    /\ length pages = 3
    /\ nth_error pages 0 = Some Demo.greeting
    /\ nth_error pages 1 = Some []
    /\ nth_error pages 2 = Some (lit "p. 2").
Proof.
  destruct
    (extract_pdf_pages_text_pages Demo.bytes Demo.error Demo.fitz_open Demo.first_pdf
       {| page_count := 3;
          get_text := fun i =>
            Return (nth i [ Some ([SP; SP] ++ Demo.greeting ++ [CR; LF; TAB]);
                            None; Some (lit "p. 2") ] None) |}
       (fun i => nth i [ Some ([SP; SP] ++ Demo.greeting ++ [CR; LF; TAB]);
                         None; Some (lit "p. 2") ] None)
       eq_refl (fun i _ => eq_refl))
    as (pages & H1 & H2 & H3 & H4).
  exists pages. split; [exact H1|]. split; [exact H2|].
  split; [exact (H3 0 (Nat.lt_0_succ 2))|].
  split; [exact (H4 1 (le_n_S 1 2 (Nat.lt_0_succ 1)) eq_refl)|].
  exact (H3 2 (le_n 3)).
Defined.

Lemma translate_text_without_threshold_witness :
  strip (lit "   ") = []
  /\ 1 <= length (strip (lit " abc ")) <= 9
  /\ translate_text Demo.same_answer (lit "   ") Demo.style [] [] = (Return [], [])
  /\ call_inputs (snd (translate_text Demo.same_answer (lit " abc ") Demo.style [] []))
     = [prompt_of (lit " abc ") Demo.style []]
  /\ translated_of Demo.same_answer (lit " abc ") Demo.style [] []
     = (Return no_text_message, []).
Proof.
  assert (strip (lit "   ") = []) as H0 by reflexivity.
  assert (1 <= length (strip (lit " abc ")) <= 9) as H1
    by (split; vm_compute; repeat constructor).
  destruct (translate_text_without_threshold Demo.bytes Demo.error Demo.same_answer
              (lit "   ") (lit " abc ") Demo.style [] [] H0 H1)
    as (A & B & _ & D).
  split; [exact H0|]. split; [exact H1|]. split; [exact A|].
  split; [|exact D]. rewrite B. reflexivity.
Defined.

Lemma run_placeholder_or_one_call_witness :
  let pdf_cache :=
    [ (lit "a.pdf", [Demo.greeting; []; lit "p. 2"]);
      (lit "b.pdf", [Demo.blessing]) ] in
  let r := run Demo.fitz_open Demo.same_answer Demo.docx_save Demo.round_float Demo.uploads
               Demo.style [] [] in
  Demo.uploads <> []
  /\ read_uploads Demo.fitz_open Demo.uploads [] 0 = Return (pdf_cache, 4)
  /\ r = (Return tt, snd r)
  /\ call_inputs (snd r)
     = [prompt_of Demo.greeting Demo.style []; prompt_of Demo.blessing Demo.style []]
  /\ exists results,
      Forall2 (file_recorded Demo.style [] (snd r)) pdf_cache results
      /\ In (DownloadButton (lit "Download translation.docx")
               (build_docx Demo.docx_save results) (lit "translation.docx")
               (lit "application/vnd.openxmlformats-officedocument.wordprocessingml.document"))
            (snd r).
Proof.
  intros pdf_cache r.
  assert (Demo.uploads <> []) as H1 by discriminate.
  assert (read_uploads Demo.fitz_open Demo.uploads [] 0 = Return (pdf_cache, 4))
    as H2 by (vm_compute; reflexivity).
  assert (r = (Return tt, snd r)) as H3 by (vm_compute; reflexivity).
  destruct (run_placeholder_or_one_call Demo.bytes Demo.error Demo.fitz_open
              Demo.same_answer Demo.docx_save Demo.round_float Demo.uploads Demo.style []
              pdf_cache 4 (Return tt) (snd r) H1 H2 H3)
    as [[Hcalls Hrecorded] _].
  split; [exact H1|]. split; [exact H2|]. split; [exact H3|].
  split; [exact Hcalls | exact Hrecorded].
Defined.


Lemma run_prompts_witness :
  let pdf_cache :=
    [ (lit "a.pdf", [Demo.greeting; []; lit "p. 2"]);
      (lit "b.pdf", [Demo.blessing]) ] in
  let r := run Demo.fitz_open Demo.same_answer Demo.docx_save Demo.round_float Demo.uploads
               Demo.style [] [] in
  let input := prompt_of Demo.blessing Demo.style [] in
  Demo.uploads <> []
  /\ read_uploads Demo.fitz_open Demo.uploads [] 0 = Return (pdf_cache, 4)
  /\ In Demo.blessing (concat (map snd pdf_cache))
  /\ 10 <= length (strip Demo.blessing)
  /\ input = prompt_template Demo.blessing Demo.style []
  /\ contains Demo.blessing input = true
  /\ contains Demo.style input = true
  /\ contains (lit "None") input = true
  /\ In input (call_inputs (snd r)).
Proof.
  intros pdf_cache r input.
  assert (Demo.uploads <> []) as H1 by discriminate.
  assert (read_uploads Demo.fitz_open Demo.uploads [] 0 = Return (pdf_cache, 4))
    as H2 by (vm_compute; reflexivity).
  assert (In Demo.blessing (concat (map snd pdf_cache))) as H3
    by (do 3 right; left; reflexivity).
  assert (10 <= length (strip Demo.blessing)) as H4
    by (vm_compute; repeat constructor).
  assert (r = (Return tt, snd r)) as H5 by (vm_compute; reflexivity).
  destruct (run_prompts Demo.bytes Demo.error Demo.fitz_open Demo.same_answer
              Demo.docx_save Demo.round_float Demo.uploads Demo.style [] pdf_cache 4
              Demo.blessing H1 H2 H3 H4)
    as (A & B & C & D & E & _).
  split; [exact H1|]. split; [exact H2|]. split; [exact H3|].
  split; [exact H4|]. split; [exact A|]. split; [exact B|].
  split; [exact C|]. split; [exact D|]. exact (E tt (snd r) H5).
Defined.

Lemma run_aborts_on_failure_witness :
  let r := run Demo.fitz_open (Demo.down_after 1) Demo.docx_save Demo.round_float Demo.uploads
               Demo.style [] [] in
  r = (Raise (LibraryError Demo.ServiceDown), snd r)
  /\ call_inputs (snd r)
     = [prompt_of Demo.greeting Demo.style []; prompt_of Demo.blessing Demo.style []]
  /\ (forall pre model input e post,
        snd r = pre ++ ServiceCall model input (Raise e) :: post ->
        post = [] /\ Raise (LibraryError Demo.ServiceDown) = @Raise _ unit e)
  /\ existsb (@is_download Demo.bytes Demo.error) (snd r) = false.
Proof.
  intros r.
  assert (r = (Raise (LibraryError Demo.ServiceDown), snd r)) as H
    by (vm_compute; reflexivity).
  destruct (run_aborts_on_failure Demo.bytes Demo.error Demo.fitz_open
              (Demo.down_after 1) Demo.docx_save Demo.round_float Demo.uploads Demo.style []
              (Raise (LibraryError Demo.ServiceDown)) (snd r) H)
    as (_ & _ & Hlast & Hnone).
  split; [exact H|]. split; [vm_compute; reflexivity|].
  split; [exact Hlast | exact (Hnone _ eq_refl)].
Defined.

(** ** The further properties at work *)

Lemma extract_pdf_pages_text_raises_witness :
  extract_pdf_pages_text Demo.fitz_open_torn Demo.first_pdf
  = Raise (LibraryError Demo.BadPdf)
  /\ extract_pdf_pages_text Demo.fitz_open Demo.NotPdf
     = Raise (LibraryError Demo.BadPdf).
Proof.
  split.
  - apply (extract_pdf_pages_text_raises Demo.bytes Demo.error
             Demo.fitz_open_torn).
    right. eexists _, 1. split; [reflexivity|].
    split; [exact (le_n_S 1 2 (Nat.lt_0_succ 1))|].
    split; [|reflexivity].
    intros [|j] Hj; [eexists; reflexivity|].
    exfalso. exact (Nat.nlt_0_r j (proj2 (Nat.succ_lt_mono j 0) Hj)).
  - apply (extract_pdf_pages_text_raises Demo.bytes Demo.error Demo.fitz_open).
    left. reflexivity.
Defined.

Lemma extract_pdf_pages_text_normalised_witness :
  let pages := [Demo.greeting; []; lit "p. 2"] in
  extract_pdf_pages_text Demo.fitz_open Demo.first_pdf = Return pages
  /\ Forall
       (fun heb =>
          normal_form heb
          /\ strip heb = heb
          /\ normalize_whitespace heb = heb
          /\ sufficient heb = (10 <=? length heb))
       pages.
Proof.
  intros pages.
  assert (extract_pdf_pages_text Demo.fitz_open Demo.first_pdf = Return pages)
    as H by reflexivity.
  split; [exact H|].
  exact (extract_pdf_pages_text_normalised Demo.bytes Demo.error
           Demo.fitz_open Demo.first_pdf pages H).
Defined.

Lemma build_docx_paragraphs_trimmed_witness :
  let items :=
    [ (lit "F", [(lit "Page 1", lit " A " ++ [LF; LF; LF] ++ lit "B ")]) ] in
  In (Paragraph (lit "B")) (body (build_docx_document items))
  /\ lit "B" <> []
  /\ stripped (lit "B")
  /\ contains [LF; LF] (lit "B") = false
  /\ exists item page,
      In item items /\ In page (snd item)
      /\ contains (lit "B") (snd page) = true.
Proof.
  intros items.
  assert (In (Paragraph (lit "B")) (body (build_docx_document items))) as H
    by (vm_compute; do 3 right; left; reflexivity).
  split; [exact H|].
  exact (build_docx_paragraphs_trimmed items (lit "B") H).
Defined.


Lemma translate_text_result_witness :
  let r := translate_text Demo.same_answer Demo.greeting Demo.style [] [] in
  r = (Return (lit "Peace be upon you."), snd r)
  /\ stripped (lit "Peace be upon you.")
  /\ strip (lit "Peace be upon you.") = lit "Peace be upon you.".
Proof.
  intros r.
  assert (r = (Return (lit "Peace be upon you."), snd r)) as H
    by (vm_compute; reflexivity).
  destruct (translate_text_result Demo.bytes Demo.error Demo.same_answer
              Demo.greeting Demo.style [] [] (snd r)
              (lit "Peace be upon you.") H)
    as (A & B & _).
  split; [exact H|]. split; [exact A | exact B].
Defined.

Lemma prompt_of_rstrip_witness :
  let hebrew_text := [SP] ++ Demo.greeting ++ [SP; LF] in
  strip hebrew_text <> []
  /\ rstrip hebrew_text = [SP] ++ Demo.greeting
  /\ prompt_of hebrew_text Demo.style []
     = prompt_template ([SP] ++ Demo.greeting) Demo.style [].
Proof.
  intros hebrew_text.
  assert (strip hebrew_text <> []) as H by (vm_compute; discriminate).
  split; [exact H|]. split; [reflexivity|].
  exact (prompt_of_rstrip hebrew_text Demo.style [] H).
Defined.


Lemma run_document_follows_uploads_witness :
  let r := run Demo.fitz_open Demo.same_answer Demo.docx_save Demo.round_float
               Demo.uploads Demo.style [] [] in
  r = (Return tt, snd r)
  /\ exists results,
      In (DownloadButton (lit "Download translation.docx")
            (build_docx Demo.docx_save results) (lit "translation.docx")
            (lit "application/vnd.openxmlformats-officedocument.wordprocessingml.document"))
         (snd r)
      /\ Forall2
           (fun up result =>
              fst result = name up
              /\ exists pages,
                  extract_pdf_pages_text Demo.fitz_open (getvalue up)
                  = Return pages
                  /\ map fst (snd result)
                     = map page_label (seq 1 (length pages)))
           Demo.uploads results.
Proof.
  intros r.
  assert (r = (Return tt, snd r)) as H by (vm_compute; reflexivity).
  split; [exact H|].
  exact (run_document_follows_uploads Demo.bytes Demo.error Demo.fitz_open
           Demo.same_answer Demo.docx_save Demo.round_float Demo.uploads
           Demo.style [] tt (snd r) H).
Defined.

Lemma run_progress_in_range_witness :
  Forall (fun v => (0 <= v)%Q /\ (v <= 1)%Q)
    (progress_values
       (snd (run Demo.fitz_open (Demo.down_after 1) Demo.docx_save
               Demo.round_float Demo.uploads Demo.style [] []))).
Proof.
  exact (run_progress_in_range Demo.bytes Demo.error Demo.fitz_open
           (Demo.down_after 1) Demo.docx_save Demo.round_float
           demo_round_float_mono demo_round_float_zero
           Demo.uploads Demo.style []).
Defined.

Lemma script_needs_credential_witness :
  let secrets := [(lit "OTHER", lit "x"); (lit "OPENAI_API_KEY", [SP; TAB])] in
  forallb isspace (dict_get secrets (lit "OPENAI_API_KEY") []) = true
  /\ exists msg,
      script Demo.fitz_open Demo.same_answer Demo.docx_save Demo.round_float
             secrets Demo.style [] Demo.uploads true
      = (Raise StopException,
         page_header Demo.bytes Demo.error ++ [Error Demo.bytes Demo.error msg])
      /\ contains (lit "Missing OPENAI_API_KEY") msg = true.
Proof.
  intros secrets.
  assert (forallb isspace (dict_get secrets (lit "OPENAI_API_KEY") []) = true)
    as H by reflexivity.
  split; [exact H|].
  exact (script_needs_credential Demo.bytes Demo.error Demo.fitz_open
           Demo.same_answer Demo.docx_save Demo.round_float secrets
           Demo.style [] Demo.uploads true (or_intror H)).
Defined.

Lemma run_model_witness :
  let r := run Demo.fitz_open Demo.same_answer Demo.docx_save Demo.round_float
               Demo.uploads Demo.style [] [] in
  In (ServiceCall (lit "gpt-4.1-mini") (prompt_of Demo.greeting Demo.style [])
        (Return (Some (lit " Peace be upon you. ")))) (snd r)
  /\ lit "gpt-4.1-mini" = lit "gpt-4.1-mini".
Proof.
  intros r.
  assert (In (ServiceCall (lit "gpt-4.1-mini")
                (prompt_of Demo.greeting Demo.style [])
                (Return (Some (lit " Peace be upon you. ")))) (snd r)) as H
    by (vm_compute; right; left; reflexivity).
  split; [exact H|].
  exact (run_model Demo.bytes Demo.error Demo.fitz_open Demo.same_answer
           Demo.docx_save Demo.round_float Demo.uploads Demo.style []
           (lit "gpt-4.1-mini") (prompt_of Demo.greeting Demo.style [])
           (Return (Some (lit " Peace be upon you. "))) H).
Defined.

Lemma run_scanned_witness :
  let pdf_cache := [ (lit "scan.pdf", [ []; lit "p. 2"; [] ]) ] in
  let results :=
    [ (lit "scan.pdf",
       [ (lit "Page 1", no_text_message); (lit "Page 2", no_text_message);
         (lit "Page 3", no_text_message) ]) ] in
  Demo.scanned_uploads <> []
  /\ read_uploads Demo.fitz_open Demo.scanned_uploads [] 0 = Return (pdf_cache, 3)
  /\ Forall (fun heb => sufficient heb = false) (concat (map snd pdf_cache))
  /\ exists tr,
      run Demo.fitz_open (Demo.down_after 0) Demo.docx_save Demo.round_float
          Demo.scanned_uploads Demo.style [] []
      = (Return tt, tr)
      /\ call_inputs tr = []
      /\ In (DownloadButton (lit "Download translation.docx")
               (build_docx Demo.docx_save results) (lit "translation.docx")
               (lit "application/vnd.openxmlformats-officedocument.wordprocessingml.document"))
            tr.
Proof.
  intros pdf_cache results.
  assert (Demo.scanned_uploads <> []) as H1 by discriminate.
  assert (read_uploads Demo.fitz_open Demo.scanned_uploads [] 0
          = Return (pdf_cache, 3)) as H2 by (vm_compute; reflexivity).
  assert (Forall (fun heb => sufficient heb = false)
                 (concat (map snd pdf_cache))) as H3
    by (repeat constructor).
  split; [exact H1|]. split; [exact H2|]. split; [exact H3|].
  exact (run_scanned Demo.bytes Demo.error Demo.fitz_open (Demo.down_after 0)
           Demo.docx_save Demo.round_float Demo.scanned_uploads Demo.style []
           pdf_cache 3 H1 H2 H3).
Defined.
